(** * goregen: generator errors and generator executors

    A shallow embedding of the Go package [regen] as found in
    [generator_error.go] (the [GeneratorError] type and its rendering) and in
    the executor file (the [GeneratorExecutor] interface, its serial and
    fork/join implementations and [executeGeneratorRepeatedly]).

    Go strings are byte sequences and are modelled by [string]; slices are
    lists read with [!!] and written with [<[i:=x]>]; an interface value is
    nil or an implementation; a Go call either returns or panics, which is
    the [go] monad below.  Memory is not bounded.  The package variable
    [numCpu] is read by none of these functions and is left out. *)

From stdpp Require Import base list strings.

(** ** Strings *)

(** The line feed written [\n] in Go string literals. *)
Definition LF_byte : Ascii.ascii := Ascii.ascii_of_nat 10.
Definition LF : string := String LF_byte "".

(** Number of lines of a text: one more than its line feeds. *)
Fixpoint count_LF (s : string) : nat :=
  match s with
  | EmptyString => 0
  | String c s' => (if Ascii.eqb c LF_byte then 1 else 0) + count_LF s'
  end.

Definition lines (s : string) : nat := S (count_LF s).

(** [t] is a suffix of [s]. *)
Definition ends_with (s t : string) : Prop := ∃ p, s = p +:+ t.

(** ** Errors and panics *)

(** Values of the interface type [error].  [errorString] is the value made by
    [errors.New], [runtimeError] a [runtime.Error] raised by the Go runtime
    (nil dereference, bad slice length, index out of range), and
    [ofGeneratorError] a [GeneratorError] struct stored in the interface.
    The field [Cause] has interface type, so it may be [nil]: [None]. *)
Inductive error : Type :=
| errorString (s : string)
| runtimeError (s : string)
| ofGeneratorError (g : GeneratorError)
with GeneratorError : Type :=
| mkGeneratorError (ErrorStr : string) (Cause : option error).

Definition ErrorStr (err : GeneratorError) : string :=
  match err with mkGeneratorError s _ => s end.

Definition Cause (err : GeneratorError) : option error :=
  match err with mkGeneratorError _ c => c end.

(** The outcome of a Go call: it returns a value, or it panics with a
    value (taken among the [error] values). *)
Inductive go (A : Type) : Type :=
| Ret (a : A)
| Panic (v : error).
Arguments Ret {A} a.
Arguments Panic {A} v.

#[global] Instance go_ret : MRet go := λ A a, Ret a.
#[global] Instance go_bind : MBind go := λ A B f m,
  match m with
  | Ret a => f a
  | Panic v => Panic v
  end.

Definition returned {A} (r : go A) : Prop := ∃ a, r = Ret a.

(** The panic of a method call through a nil interface value. *)
Definition nil_dereference : error :=
  runtimeError "runtime error: invalid memory address or nil pointer dereference".

(** The panic of [make] with a negative length. *)
Definition makeslice_len_out_of_range : error :=
  runtimeError "runtime error: makeslice: len out of range".

(** The panic of an index expression outside the slice. *)
Definition index_out_of_range : error :=
  runtimeError "runtime error: index out of range".

(** [fmt.Sprintf("%s\ncaused by %s", a, b)] on two string operands: the verb
    [%s] writes a string operand as it is. *)
Definition Sprintf_s_caused_by_s (a b : string) : string :=
  a +:+ LF +:+ "caused by " +:+ b.

(** [Error()] called through an [error] interface value, and the method
    [func (err GeneratorError) Error() string].  The operand
    [err.Cause.Error()] is evaluated first: on a nil [Cause] the call
    panics, and a panic of the cause's own [Error] goes through. *)
Fixpoint error_Error (e : error) : go string :=
  match e with
  | errorString s => Ret s
  | runtimeError s => Ret s
  | ofGeneratorError g => GeneratorError_Error g
  end
with GeneratorError_Error (err : GeneratorError) : go string :=
  match err with
  | mkGeneratorError ErrorStr Cause =>
      match Cause with
      | None => Panic nil_dereference
      | Some cause =>
          c ← error_Error cause;
          mret (Sprintf_s_caused_by_s ErrorStr c)
      end
  end.

Section GeneratorErrorConstructor.
(** [fmt.Sprintf] on an arbitrary format and operands is the standard
    library's; the constructor only passes its arguments on. *)
Context {Arg : Type} (Sprintf : string → list Arg → string).

Definition generatorError (cause : option error) (format : string)
    (args : list Arg) : error :=
  ofGeneratorError (mkGeneratorError (Sprintf format args) cause).
End GeneratorErrorConstructor.

(** A chain of wrapped errors: [msgs] are the messages of the successive
    [GeneratorError] layers, outermost first, around the innermost [leaf]. *)
Definition wrap_chain (msgs : list string) (leaf : error) : error :=
  foldr (λ m c, ofGeneratorError (mkGeneratorError m (Some c))) leaf msgs.

(** The text of a causal chain: each message, then on the next line
    [caused by] and the rest of the chain. *)
Definition chain_text (msgs : list string) (leaf : string) : string :=
  foldr (λ m rest, m +:+ LF +:+ "caused by " +:+ rest) leaf msgs.

(** ** Processes, completions and the execution monad *)

(** How a call of [Execute] stands when the process is looked at: it has
    returned, a panic has unwound it into its caller, the Go runtime has
    terminated the process on the panic of a goroutine that nothing
    recovered (after which no goroutine takes a step), or the call is still
    under way (the caller is launching goroutines or is blocked in
    [waiter.Wait()]). *)
Inductive Completion (A : Type) : Type :=
| Returns (a : A)
| Panics (v : error)
| Crashes (v : error)
| Unfinished.
Arguments Returns {A} a.
Arguments Panics {A} v.
Arguments Crashes {A} v.
Arguments Unfinished {A}.

(** The value a failed call hands to whoever observes the failure. *)
Definition failure {A} (c : Completion A) : option error :=
  match c with
  | Panics v | Crashes v => Some v
  | Returns _ | Unfinished => None
  end.

(** [v] is a [GeneratorError] whose [Cause] is [cause]. *)
Definition wraps (v cause : error) : Prop :=
  ∃ msg, v = ofGeneratorError (mkGeneratorError msg (Some cause)).

Section Executors.
(** [St] is whatever state the generators read and change (a random
    source, counters, ...).  The interface [Generator] is declared in
    another file of the package; the executors use one method of it,
    [Generate], whose single result is written to a string buffer and
    stored in a [[]string].  [Impl] stands for the values that implement
    the interface and [Impl_Generate] for their method.  A call of
    [Generate] is taken to come to an end, by returning or by panicking: a
    call that never ends, or that ends the process itself, is not
    modelled. *)
Context {St Impl : Type} (Impl_Generate : Impl → St → go string * St).

(** A value of interface type [Generator]: nil, or an implementation. *)
Definition Generator : Type := option Impl.

(** [g.Generate()]; through a nil interface the call panics. *)
Definition Generate (g : Generator) (st : St) : go string * St :=
  match g with
  | None => (Panic nil_dereference, st)
  | Some x => Impl_Generate x st
  end.

(** The process as the executors see it: the generators' state, and the
    record of the [Generate] calls made so far, oldest first, each with the
    slice index it was made through and how it ended.  The record is
    ghost state: no code reads it. *)
Record Proc : Type := mkProc {
  world : St;
  calls : list (nat * go string)
}.

Definition start (st : St) : Proc := mkProc st [].

(** Every call on record returned. *)
Definition all_returned (p : Proc) : Prop :=
  Forall (λ e, returned e.2) (calls p).

(** In whatever state it is called, [g.Generate()] returns [out]; it may
    still change the state. *)
Definition always_returns (g : Generator) (out : string) : Prop :=
  ∀ st, (Generate g st).1 = Ret out.

(** What the calls [generators[j].Generate()] come to when they are made
    for the indices [j] of [js] one after the other from the state [st]:
    how each call ends, and the state the last one leaves; nothing when an
    index is outside the slice.  A call that panics leaves its state
    behind like any other, and the calls after it are made all the same. *)
Fixpoint Generate_through (generators : list Generator) (js : list nat)
    (st : St) : option (list (go string) * St) :=
  match js with
  | [] => Some ([], st)
  | j :: js' =>
      g ← generators !! j;
      '(rs, st') ← Generate_through generators js' (Generate g st).2;
      Some ((Generate g st).1 :: rs, st')
  end.

(** Go code run in a goroutine of the process: it changes the process and
    completes, or is cut short by a panic. *)
Definition M (A : Type) : Type := Proc → Completion A * Proc.

#[global] Instance M_ret : MRet M := λ A a p, (Returns a, p).
#[global] Instance M_bind : MBind M := λ A B f m p,
  match m p with
  | (Returns a, p') => f a p'
  | (Panics v, p') => (Panics v, p')
  | (Crashes v, p') => (Crashes v, p')
  | (Unfinished, p') => (Unfinished, p')
  end.

Definition panic {A} (v : error) : M A := λ p, (Panics v, p).

(** [for i := lo; i < lo + count; i++ { a = body(i, a) }] *)
Fixpoint for_loop {A} (count i : nat) (body : nat → A → M A) (a : A) : M A :=
  match count with
  | 0 => mret a
  | S count' => a' ← body i a; for_loop count' (S i) body a'
  end.

(** [s[i]] as an expression: a run-time panic outside the slice. *)
Definition index {A} (s : list A) (i : nat) : M A :=
  match s !! i with
  | Some x => mret x
  | None => panic index_out_of_range
  end.

(** [s[i] = x] *)
Definition store {A} (s : list A) (i : nat) (x : A) : M (list A) :=
  if decide (i < length s) then mret (<[i:=x]> s) else panic index_out_of_range.

(** [make([]T, n, n)] with every element the zero value of [T]. *)
Definition make {A} (zero : A) (n : Z) : M (list A) :=
  if decide (n < 0)%Z then panic makeslice_len_out_of_range
  else mret (replicate (Z.to_nat n) zero).

(** [generators[i].Generate()], once [generators[i]] has been read: the
    call runs on the generators' state and goes on record. *)
Definition call_Generate (i : nat) (g : Generator) : M string := λ p,
  let '(r, st) := Generate g (world p) in
  let p' := mkProc st (calls p ++ [(i, r)]) in
  match r with
  | Ret s => (Returns s, p')
  | Panic v => (Panics v, p')
  end.

(** ** The executors *)

(** [type GeneratorExecutor interface { Execute(generators []Generator) string }] *)
Record GeneratorExecutor : Type := {
  Execute : list Generator → M string
}.

(** [func (serialExecutor) Execute(generators []Generator) string];
    [buffer] is the [bytes.Buffer], [WriteString] appends to it, and
    [serial_body] is the body of the loop:
    [buffer.WriteString(generators[i].Generate())]. *)
Definition serial_body (generators : list Generator) (i : nat)
    (buffer : string) : M string :=
  g ← index generators i;
  s ← call_Generate i g;
  mret (buffer +:+ s).

Definition serialExecutor_Execute (generators : list Generator) : M string :=
  let numGens := length generators in
  buffer ← for_loop numGens 0 (serial_body generators) "";
  mret buffer.

Definition NewSerialExecutor : GeneratorExecutor :=
  {| Execute := serialExecutor_Execute |}.

(** ** The fork/join executor *)

(** How far the goroutine launched with argument [i] has come in its body
    [defer waiter.Done(); results[i] = generators[i].Generate()]: it has
    been launched, its call has returned [s], it has assigned [results[i]],
    it has run the deferred [waiter.Done()] and is over.  When the body
    panics with [v] the assignment is skipped: the goroutine is
    [Panicking], with the deferred [waiter.Done()] still to run, and once
    that has run it is [Dying]: nothing has recovered the panic, and what
    is left to this goroutine is the runtime's termination of the process. *)
Inductive Stage : Type :=
| Launched
| Called (s : string)
| Stored
| Finished
| Panicking (v : error)
| Dying (v : error).

(** What the goroutines of one [Execute] call share with the goroutine that
    launched them: the slice [results] and the counter of the wait group
    [waiter]; and, kept by the Go runtime, the goroutines launched so far,
    the one with argument [i] at position [i]. *)
Record Shared : Type := mkShared {
  results : list string;
  waiter : Z;
  goroutines : list Stage
}.

(** [waiter.Add(n)] *)
Definition waiter_Add (n : Z) (h : Shared) : Shared :=
  mkShared (results h) (waiter h + n) (goroutines h).

(** Whose turn it is: the goroutine that called [Execute], or the
    goroutine launched with argument [i]. *)
Inductive Turn : Type :=
| MainTurn
| GoroutineTurn (i : nat).

(** A statement of a function that has deferred calls: a panic in it does
    not leave the function at once, it ends the statement and the deferred
    calls run next.  [unwinding m] hands over how [m] ended. *)
Definition unwinding {A} (m : M A) : M (go A) := λ p,
  match m p with
  | (Returns a, p') => (Returns (Ret a), p')
  | (Panics v, p') => (Returns (Panic v), p')
  | (Crashes v, p') => (Crashes v, p')
  | (Unfinished, p') => (Unfinished, p')
  end.

(** The end of a panic that no deferred call has recovered: the runtime
    terminates the process. *)
Definition fatalpanic {A} (v : error) : M A := λ p, (Crashes v, p).

(** A turn of the calling goroutine: the next round of its loop,
    [go func(i int) { ... }(i)], where [i] is the number of goroutines
    launched so far.  Past the last round it is in [waiter.Wait()], and its
    turn changes nothing. *)
Definition main_turn (generators : list Generator) (h : Shared) : Shared :=
  if decide (length (goroutines h) < length generators)
  then mkShared (results h) (waiter h) (goroutines h ++ [Launched])
  else h.

(** A turn of the goroutine with argument [i], one step of its body.  It
    calls [generators[i].Generate()], then assigns [results[i]], then runs
    the deferred [waiter.Done()] and is over.  When the call (or the
    assignment) panics, the goroutine goes on all the same: at its next turn
    it runs the deferred [waiter.Done()], so the counter drops as for a
    goroutine that succeeded, and only at the turn after that does the
    runtime terminate the process; in between the other goroutines take
    their turns as before.  A goroutine not launched yet, or over, has
    nothing to run. *)
Definition goroutine_turn (generators : list Generator) (i : nat) (h : Shared)
    : M Shared :=
  match goroutines h !! i with
  | Some Launched =>
      r ← unwinding (g ← index generators i; call_Generate i g);
      match r with
      | Ret s =>
          mret (mkShared (results h) (waiter h)
                  (<[i:=Called s]> (goroutines h)))
      | Panic v =>
          mret (mkShared (results h) (waiter h)
                  (<[i:=Panicking v]> (goroutines h)))
      end
  | Some (Called s) =>
      r ← unwinding (store (results h) i s);
      match r with
      | Ret results' =>
          mret (mkShared results' (waiter h) (<[i:=Stored]> (goroutines h)))
      | Panic v =>
          mret (mkShared (results h) (waiter h)
                  (<[i:=Panicking v]> (goroutines h)))
      end
  | Some Stored =>
      mret (mkShared (results h) (waiter h - 1) (<[i:=Finished]> (goroutines h)))
  | Some (Panicking v) =>
      mret (mkShared (results h) (waiter h - 1) (<[i:=Dying v]> (goroutines h)))
  | Some (Dying v) => fatalpanic v
  | Some Finished | None => mret h
  end.

Definition turn (generators : list Generator) (t : Turn) (h : Shared)
    : M Shared :=
  match t with
  | MainTurn => mret (main_turn generators h)
  | GoroutineTurn i => goroutine_turn generators i h
  end.

(** The goroutines take their turns in the order [turns]: an interleaving
    of the launching loop and of the bodies of the goroutines, each
    [Generate] call taken as one step. *)
Fixpoint interleave (generators : list Generator) (turns : list Turn)
    (h : Shared) : M Shared :=
  match turns with
  | [] => mret h
  | t :: turns' => h' ← turn generators t h; interleave generators turns' h'
  end.

(** [Execute] before its loop: [results] is allocated and [waiter.Add(numGens)]
    has run. *)
Definition fork (generators : list Generator) : Shared :=
  let numGens := length generators in
  let results := replicate numGens "" in
  waiter_Add (Z.of_nat numGens) (mkShared results 0 []).

(** The calling goroutine gets past [waiter.Wait()] once it has made all
    its [go] statements and the counter is zero. *)
Definition waiter_Wait (generators : list Generator) (h : Shared) : M unit :=
  λ p,
  if decide (length (goroutines h) = length generators ∧ waiter h = 0%Z)
  then (Returns (), p)
  else (Unfinished, p).

(** [func (forkJoinExecutor) Execute(generators []Generator) string] under
    the interleaving [turns]; past the barrier it returns
    [strings.Join(results, "")]. *)
Definition forkJoinExecutor_Execute (turns : list Turn)
    (generators : list Generator) : M string :=
  h ← interleave generators turns (fork generators);
  _ ← waiter_Wait generators h;
  mret (String.concat "" (results h)).

Definition NewForkJoinExecutor (turns : list Turn) : GeneratorExecutor :=
  {| Execute := forkJoinExecutor_Execute turns |}.

(** An interleaving that brings any call under way to its end: the
    launching loop first, then each goroutine through its three steps
    (call, assignment and [Done]; or call, [Done] and the termination of
    the process). *)
Definition finish (generators : list Generator) : list Turn :=
  replicate (length generators) MainTurn
  ++ (seq 0 (length generators)
        ≫= λ i, [GoroutineTurn i; GoroutineTurn i; GoroutineTurn i]).

(** The interleaving in which the goroutines are launched first and then
    run one after the other, each to its end, in the order [sched]. *)
Definition one_by_one (generators : list Generator) (sched : list nat)
    : list Turn :=
  replicate (length generators) MainTurn
  ++ (sched ≫= λ i, [GoroutineTurn i; GoroutineTurn i; GoroutineTurn i]).

(** The goroutine has run its deferred [waiter.Done()]. *)
Definition has_run_Done (sg : Stage) : bool :=
  match sg with
  | Finished | Dying _ => true
  | Launched | Called _ | Stored | Panicking _ => false
  end.

(** The body of the goroutine has panicked. *)
Definition is_panicking (sg : Stage) : bool :=
  match sg with
  | Panicking _ | Dying _ => true
  | Launched | Called _ | Stored | Finished => false
  end.

(** The goroutine at this position has assigned its slot. *)
Definition has_stored (sg : option Stage) : bool :=
  match sg with
  | Some Stored | Some Finished => true
  | Some Launched | Some (Called _) | Some (Panicking _) | Some (Dying _)
  | None => false
  end.

(** The number of goroutines that have finished their body: those that
    have run the deferred [waiter.Done()]. *)
Fixpoint finished (l : list Stage) : nat :=
  match l with
  | [] => 0
  | sg :: l' => (if has_run_Done sg then 1 else 0) + finished l'
  end.

(** What holds of the shared state and of the calls [ev] made since
    [Execute] was entered, as long as the process has not been terminated. *)
Record Inv (generators : list Generator) (h : Shared)
    (ev : list (nat * go string)) : Prop := mkInv {
  inv_results : length (results h) = length generators;
  inv_launched : length (goroutines h) ≤ length generators;
  inv_waiter :
    waiter h = (Z.of_nat (length generators)
                - Z.of_nat (finished (goroutines h)))%Z;
  inv_once : NoDup ev.*1;
  inv_called : ∀ i,
    i ∈ ev.*1 ↔ ∃ sg, goroutines h !! i = Some sg ∧ sg ≠ Launched;
  inv_pending : ∀ i s, goroutines h !! i = Some (Called s) → (i, Ret s) ∈ ev;
  inv_slot : ∀ i s,
    (i, Ret s) ∈ ev →
    goroutines h !! i = Some Stored ∨ goroutines h !! i = Some Finished →
    results h !! i = Some s;
  inv_returned : ∀ i,
    goroutines h !! i = Some Stored ∨ goroutines h !! i = Some Finished →
    ∃ s, (i, Ret s) ∈ ev;
  inv_panicked : ∀ i v,
    goroutines h !! i = Some (Panicking v) ∨ goroutines h !! i = Some (Dying v) →
    (i, Panic v) ∈ ev;
  inv_empty : ∀ i,
    i < length generators → has_stored (goroutines h !! i) = false →
    results h !! i = Some "";
  inv_genuine : ∀ i r,
    (i, r) ∈ ev → ∃ g st, generators !! i = Some g ∧ (Generate g st).1 = r
}.

(** ** Running one generator repeatedly *)

(** [func executeGeneratorRepeatedly(executor GeneratorExecutor,
    generator Generator, n int) string] *)
Definition executeGeneratorRepeatedly (executor : GeneratorExecutor)
    (generator : Generator) (n : Z) : M string :=
  generators ← make (None : Generator) n;
  generators ← for_loop (Z.to_nat n) 0
                  (λ i generators, store generators i generator) generators;
  Execute executor generators.

End Executors.

Arguments Generator : clear implicits.
Arguments Proc : clear implicits.
Arguments GeneratorExecutor : clear implicits.

(** ** Sample generators

    Three implementations of [Generator] over a one-bit state, used to run
    the executors on concrete task lists: [Const s] always returns [s] and
    leaves the state alone, [Boom msg] always panics with the error [msg],
    and [Flip] returns ["a"] the first time any [Flip] is called and ["b"]
    afterwards. *)
Inductive Sample : Type :=
| Const (s : string)
| Boom (msg : string)
| Flip.

Definition Sample_Generate (x : Sample) (st : bool) : go string * bool :=
  match x with
  | Const s => (Ret s, st)
  | Boom msg => (Panic (errorString msg), st)
  | Flip => (Ret (if st then "b" else "a"), true)
  end.

(** The task list of the scenario [G0 -> "a"], [G1] fails with ["boom"],
    [G2 -> "c"]; a task list of three generators that return; and the same
    state-dependent generator twice. *)
Definition a_boom_c : list (Generator Sample) :=
  [Some (Const "a"); Some (Boom "boom"); Some (Const "c")].

Definition a_b_c : list (Generator Sample) :=
  [Some (Const "a"); Some (Const "b"); Some (Const "c")].

Definition flip_flip : list (Generator Sample) := [Some Flip; Some Flip].

(** An interleaving for three tasks in which goroutine 0 calls its
    generator before the others are launched, goroutine 2 is the first to
    finish and goroutine 1 the last to call. *)
Definition mixed_turns : list Turn :=
  [MainTurn; GoroutineTurn 0; MainTurn; MainTurn;
   GoroutineTurn 2; GoroutineTurn 2; GoroutineTurn 0; GoroutineTurn 2;
   GoroutineTurn 1; GoroutineTurn 0; GoroutineTurn 1; GoroutineTurn 1].

(** An interleaving for [a_boom_c] in which the three goroutines are
    launched, those of the tasks 0 and 2 run to their end, and the one of
    task 1 makes its call, which panics, and runs its deferred
    [waiter.Done()]; the runtime has not terminated the process yet. *)
Definition boom_before_exit : list Turn :=
  one_by_one a_boom_c [0; 2] ++ [GoroutineTurn 1; GoroutineTurn 1].

(** ** Further notions *)

(** The chain of causes of [e] ends in an error that is not a
    [GeneratorError]: no layer has a nil [Cause]. *)
Fixpoint rooted (e : error) : bool :=
  match e with
  | errorString _ | runtimeError _ => true
  | ofGeneratorError (mkGeneratorError _ Cause) =>
      match Cause with
      | None => false
      | Some cause => rooted cause
      end
  end.

(** What a caller can observe of a call: how it stands, and the
    generators' state. *)
Definition observable {St A} (R : Completion A * Proc St) : Completion A * St :=
  (R.1, world R.2).

(** A call followed, when it returns, by a second call on the state
    reached, the two texts put together; a call that does not return is the
    end. *)
Definition and_then {St} (R1 : Completion string * Proc St)
    (next : St → Completion string * Proc St) : Completion string * St :=
  match R1 with
  | (Returns s1, p1) =>
      match next (world p1) with
      | (Returns s2, p2) => (Returns (s1 +:+ s2), world p2)
      | (c, p2) => (c, world p2)
      end
  | (c, p1) => (c, world p1)
  end.

(** * Properties *)

(** ** Strings *)

Lemma append_cons (c : Ascii.ascii) (s t : string) :
  String c s +:+ t = String c (s +:+ t).
Proof. reflexivity. Qed.

Lemma append_nil_r (s : string) : s +:+ "" = s.
Proof. induction s as [|c s IH]; [done |]. by rewrite append_cons, IH. Qed.

Lemma append_assoc (s t u : string) : (s +:+ t) +:+ u = s +:+ (t +:+ u).
Proof. induction s as [|c s IH]; [done |]. by rewrite !append_cons, IH. Qed.

(** [strings.Join(l, "")]: with the empty separator the join is a plain
    right-nested concatenation. *)
Lemma Join_cons (x : string) (l : list string) :
  String.concat "" (x :: l) = x +:+ String.concat "" l.
Proof. destruct l; [apply eq_sym, append_nil_r | reflexivity]. Qed.

(** ** Lists *)

(** In a list of pairs with no key twice, a key has one value. *)
Lemma NoDup_fst_agree {A B} (l : list (A * B)) (k : A) (x y : B) :
  NoDup l.*1 → (k, x) ∈ l → (k, y) ∈ l → x = y.
Proof.
  induction l as [|[k' z] l IH]; intros Hnd Hx Hy.
  - by apply elem_of_nil in Hx.
  - rewrite fmap_cons in Hnd. apply NoDup_cons in Hnd as [Hk' Hnd].
    assert (Hin : ∀ w, (k', w) ∈ l → False).
    { intros w Hw. apply Hk'. apply list_elem_of_fmap. by exists (k', w). }
    apply elem_of_cons in Hx as [Hx|Hx], Hy as [Hy|Hy].
    + congruence.
    + injection Hx as -> ->. by destruct (Hin y).
    + injection Hy as -> ->. by destruct (Hin x).
    + by apply IH.
Qed.

(** ** Rendering of [GeneratorError] *)

Lemma error_Error_wrap (msg : string) (cause : error) :
  error_Error (ofGeneratorError (mkGeneratorError msg (Some cause))) =
  c ← error_Error cause; mret (msg +:+ LF +:+ "caused by " +:+ c).
Proof. reflexivity. Qed.

Lemma error_Error_wrap_chain (msgs : list string) (leaf : error) (c : string) :
  error_Error leaf = Ret c →
  error_Error (wrap_chain msgs leaf) = Ret (chain_text msgs c).
Proof.
  intros Hleaf. induction msgs as [|m msgs IH]; [exact Hleaf |].
  change (wrap_chain (m :: msgs) leaf)
    with (ofGeneratorError (mkGeneratorError m (Some (wrap_chain msgs leaf)))).
  by rewrite error_Error_wrap, IH.
Qed.

(** C6: when the cause of a [GeneratorError] is present and renders as [c],
    [Error()] returns the local message, a line feed, ["caused by "] and
    [c], also for the error built by [generatorError] from a format and its
    operands; a chain of such errors around that cause renders layer by
    layer into one text; and the error ["building pattern"] around the cause
    ["invalid token"] renders as two lines, the text ending in
    ["caused by invalid token"]. *)
Theorem GeneratorError_Error_renders_causal_chain
    {Arg : Type} (Sprintf : string → list Arg → string)
    (format : string) (args : list Arg)
    (msg : string) (msgs : list string) (cause : error) (c : string)
    (Hcause : error_Error cause = Ret c) :
  GeneratorError_Error (mkGeneratorError msg (Some cause)) =
    Ret (msg +:+ LF +:+ "caused by " +:+ c)
  ∧ error_Error (generatorError Sprintf (Some cause) format args) =
    Ret (Sprintf format args +:+ LF +:+ "caused by " +:+ c)
  ∧ error_Error (wrap_chain msgs cause) = Ret (chain_text msgs c)
  ∧ ∃ text,
      GeneratorError_Error
        (mkGeneratorError "building pattern"
           (Some (errorString "invalid token"))) = Ret text
      ∧ text = "building pattern" +:+ LF +:+ "caused by invalid token"
      ∧ lines text = 2
      ∧ ends_with text "caused by invalid token".
Proof.
  split; [| split; [| split]].
  - change (GeneratorError_Error (mkGeneratorError msg (Some cause)))
      with (error_Error (ofGeneratorError (mkGeneratorError msg (Some cause)))).
    by rewrite error_Error_wrap, Hcause.
  - unfold generatorError. by rewrite error_Error_wrap, Hcause.
  - by apply error_Error_wrap_chain.
  - eexists. split; [reflexivity |]. split; [reflexivity |].
    split; [reflexivity |]. by exists ("building pattern" +:+ LF).
Qed.

Lemma GeneratorError_Error_renders_causal_chain_witness :
  error_Error (errorString "invalid token") = Ret "invalid token"
  ∧ error_Error
      (wrap_chain ["generating"; "building pattern"]
         (errorString "invalid token")) =
    Ret ("generating" +:+ LF +:+ "caused by building pattern" +:+ LF +:+
         "caused by invalid token").
Proof.
  split; [reflexivity |].
  exact (proj1 (proj2 (proj2 (GeneratorError_Error_renders_causal_chain
    (λ format (_ : list string), format) "building pattern" []
    "building pattern" ["generating"; "building pattern"]
    (errorString "invalid token") "invalid token" eq_refl)))).
Defined.

(** C7: [Error()] called on a [GeneratorError] whose [Cause] is nil does
    not return the local message: the call [err.Cause.Error()] goes through
    a nil interface and panics. *)
Theorem GeneratorError_Error_nil_Cause_panics (msg : string) :
  GeneratorError_Error (mkGeneratorError msg None) = Panic nil_dereference
  ∧ ¬ returned (GeneratorError_Error (mkGeneratorError "building pattern" None)).
Proof.
  split; [reflexivity |]. intros [s Hs]. discriminate Hs.
Qed.

(** ** The execution monad and its loops *)

Section ExecutorFacts.
Context {St Impl : Type} (Impl_Generate : Impl → St → go string * St).

Implicit Types (p : Proc St) (g : Generator Impl) (h : Shared).
Implicit Types (generators gens : list (Generator Impl)).

Local Abbreviation Generate := (Generate Impl_Generate).
Local Abbreviation always_returns := (always_returns Impl_Generate).
Local Abbreviation Generate_through := (Generate_through Impl_Generate).
Local Abbreviation serial_body := (serial_body Impl_Generate).
Local Abbreviation serialExecutor_Execute :=
  (serialExecutor_Execute Impl_Generate).
Local Abbreviation goroutine_turn := (goroutine_turn Impl_Generate).
Local Abbreviation turn := (turn Impl_Generate).
Local Abbreviation interleave := (interleave Impl_Generate).
Local Abbreviation Inv := (Inv Impl_Generate).
Local Abbreviation forkJoinExecutor_Execute :=
  (forkJoinExecutor_Execute Impl_Generate).
Local Abbreviation NewSerialExecutor := (NewSerialExecutor Impl_Generate).
Local Abbreviation NewForkJoinExecutor := (NewForkJoinExecutor Impl_Generate).

Lemma bind_mret {A} (m : M A) p : (x ← m; mret x) p = m p.
Proof.
  unfold mbind, M_bind, mret, M_ret.
  by destruct (m p) as [[a|v|v|] p'].
Qed.

Lemma for_loop_S {A} (c i : nat) (body : nat → A → M A) (a : A) p :
  for_loop (S c) i body a p =
  match body i a p with
  | (Returns a', p') => for_loop c (S i) body a' p'
  | (Panics v, p') => (Panics v, p')
  | (Crashes v, p') => (Crashes v, p')
  | (Unfinished, p') => (Unfinished, p')
  end.
Proof. reflexivity. Qed.

(** A loop of [a + b] rounds is a loop of [a] rounds followed, unless it
    was cut short, by a loop of [b] rounds. *)
Lemma for_loop_add {A} (a b i : nat) (body : nat → A → M A) (x : A) p :
  for_loop (a + b) i body x p =
  (x' ← for_loop a i body x; for_loop b (i + a) body x') p.
Proof.
  revert i x p. induction a as [|a IH]; intros i x p.
  - unfold mbind, M_bind. simpl. by rewrite Nat.add_0_r.
  - change (S a + b) with (S (a + b)). rewrite for_loop_S.
    unfold mbind, M_bind. rewrite for_loop_S.
    destruct (body i x p) as [[x'|v|v|] p']; try done.
    rewrite IH. unfold mbind, M_bind. by rewrite Nat.add_succ_r.
Qed.

(** Only the rounds [i .. i + c - 1] of the body matter. *)
Lemma for_loop_ext {A} (c i : nat) (body body' : nat → A → M A) (a : A) p :
  (∀ j x q, i ≤ j < i + c → body j x q = body' j x q) →
  for_loop c i body a p = for_loop c i body' a p.
Proof.
  revert i a p. induction c as [|c IH]; intros i a p Hext; [done |].
  rewrite !for_loop_S, <- Hext by lia.
  destruct (body i a p) as [[a'|v|v|] p']; try done.
  apply IH. intros j x q Hj. apply Hext. lia.
Qed.

(** ** The serial executor *)

(** One round of the serial loop. *)
Lemma serial_body_round gens i g buffer p :
  gens !! i = Some g →
  serial_body gens i buffer p =
  match Generate g (world p) with
  | (Ret s, st) => (Returns (buffer +:+ s), mkProc st (calls p ++ [(i, Ret s)]))
  | (Panic v, st) => (Panics v, mkProc st (calls p ++ [(i, Panic v)]))
  end.
Proof.
  intros Hg. unfold serial_body, index, mbind, M_bind, call_Generate.
  rewrite Hg. unfold mret, M_ret.
  by destruct (Generate g (world p)) as [[s|v] st].
Qed.

(** What the serial loop has done when it stops: it has made its calls
    through consecutive indices, and either every call returned and the
    buffer holds the results in that order, or the last call made is the
    one that panicked. *)
Lemma serial_loop_spec gens c i buffer p :
  i + c = length gens →
  ∃ outs,
    match for_loop c i (serial_body gens) buffer p with
    | (Returns s, p') =>
        length outs = c
        ∧ s = buffer +:+ String.concat "" outs
        ∧ calls p' = calls p ++ zip (seq i c) (Ret <$> outs)
    | (Panics v, p') =>
        length outs < c
        ∧ calls p' = calls p ++ zip (seq i (length outs)) (Ret <$> outs)
                       ++ [(i + length outs, Panic v)]
    | _ => False
    end.
Proof.
  revert i buffer p. induction c as [|c IH]; intros i buffer p Hlen.
  - exists []. simpl. by rewrite append_nil_r, app_nil_r.
  - destruct (lookup_lt_is_Some_2 gens i) as [g Hg]; [lia |].
    rewrite for_loop_S, (serial_body_round _ _ _ _ _ Hg).
    destruct (Generate g (world p)) as [[s|v] st].
    + destruct (IH (S i) (buffer +:+ s) (mkProc st (calls p ++ [(i, Ret s)])))
        as [outs Houts]; [lia |].
      exists (s :: outs).
      destruct (for_loop c (S i) _ _ _) as [[s'|v|v|] p']; try done.
      * destruct Houts as (Hl & -> & ->).
        rewrite Join_cons, append_assoc. cbn [calls].
        rewrite <- app_assoc. split; [simpl; lia | done].
      * destruct Houts as (Hl & ->). cbn [calls].
        rewrite <- !app_assoc. cbn [length]. rewrite Nat.add_succ_r.
        split; [lia | done].
    + exists []. simpl. rewrite Nat.add_0_r. split; [lia | done].
Qed.

(** ** The calls on record are the calls of the generators *)

Lemma Generate_through_snoc gens (ev : list (nat * go string)) st i g st1 :
  Generate_through gens ev.*1 st = Some (ev.*2, st1) →
  gens !! i = Some g →
  Generate_through gens (ev ++ [(i, (Generate g st1).1)]).*1 st =
  Some ((ev ++ [(i, (Generate g st1).1)]).*2, (Generate g st1).2).
Proof.
  revert st. induction ev as [|[j r] ev IH]; intros st Hev Hg.
  - injection Hev as <-. cbn. rewrite Hg. reflexivity.
  - cbn in Hev |- *. destruct (gens !! j) as [gj|]; [| done]. cbn in Hev |- *.
    destruct (Generate_through gens ev.*1 (Generate gj st).2)
      as [[rs st']|] eqn:Hrec; [| done].
    cbn in Hev. injection Hev as Hr Hrs Hst. subst r rs st'.
    by rewrite (IH _ Hrec Hg).
Qed.

(** A process whose record is that of calls of the generators of [gens],
    made one after the other from the state [st0], each through the index
    on record. *)
Local Abbreviation genuine gens st0 p :=
  (Generate_through gens (calls p).*1 st0
   = Some ((calls p).*2, world p)).

Lemma genuine_call gens st0 p i g :
  genuine gens st0 p →
  gens !! i = Some g →
  genuine gens st0
    (mkProc (Generate g (world p)).2
       (calls p ++ [(i, (Generate g (world p)).1)])).
Proof. intros Hp Hg. cbn [calls world]. by apply Generate_through_snoc. Qed.

(** One round of the serial loop makes at most one call, the call of
    [gens[i]]. *)
Lemma serial_body_genuine gens st0 i buffer p :
  genuine gens st0 p →
  genuine gens st0 (serial_body gens i buffer p).2.
Proof.
  intros Hp. destruct (gens !! i) as [g|] eqn:Hg.
  - rewrite (serial_body_round _ _ _ _ _ Hg).
    pose proof (genuine_call gens st0 p i g Hp Hg) as Hcall.
    by destruct (Generate g (world p)) as [[s|v] st].
  - unfold serial_body, index, mbind, M_bind. by rewrite Hg.
Qed.

Lemma serial_loop_genuine gens st0 c i buffer p :
  genuine gens st0 p →
  genuine gens st0 (for_loop c i (serial_body gens) buffer p).2.
Proof.
  revert i buffer p. induction c as [|c IH]; intros i buffer p Hp; [done |].
  rewrite for_loop_S.
  pose proof (serial_body_genuine gens st0 i buffer p Hp) as Hbody.
  destruct (serial_body gens i buffer p) as [[b|v|v|] p']; try done.
  by apply IH.
Qed.

Lemma serialExecutor_Execute_genuine gens st0 p :
  genuine gens st0 p →
  genuine gens st0 (serialExecutor_Execute gens p).2.
Proof.
  intros Hp. unfold serialExecutor_Execute. rewrite bind_mret.
  by apply serial_loop_genuine.
Qed.

(** ** The fork/join executor: stages and turns *)

Lemma finished_app (l k : list Stage) :
  finished (l ++ k) = finished l + finished k.
Proof. induction l as [|sg l IH]; simpl; [done | rewrite IH; lia]. Qed.

Lemma finished_le (l : list Stage) : finished l ≤ length l.
Proof. induction l as [|[] l IH]; simpl; lia. Qed.

(** Moving one goroutine to another stage. *)
Lemma finished_insert (l : list Stage) (i : nat) (x y : Stage) :
  l !! i = Some y →
  finished (<[i:=x]> l) + (if has_run_Done y then 1 else 0) =
  finished l + (if has_run_Done x then 1 else 0).
Proof.
  revert i. induction l as [|sg l IH]; intros [|i] Hi; try done.
  - injection Hi as ->. simpl. lia.
  - simpl in *. specialize (IH i Hi). lia.
Qed.

Lemma finished_all (l : list Stage) :
  finished l = length l ↔ ∀ i sg, l !! i = Some sg → has_run_Done sg = true.
Proof.
  induction l as [|sg l IH]; [done |]. split.
  - intros Hall. pose proof (finished_le l) as Hle.
    assert (has_run_Done sg = true ∧ finished l = length l) as [Hsg Hl]
      by (simpl in Hall; destruct (has_run_Done sg); split; (done || lia)).
    intros [|i] sg' Hi; [by injection Hi as <- |].
    by apply (proj1 IH Hl i).
  - intros Hall. simpl. rewrite (Hall 0 sg eq_refl). f_equal.
    apply IH. intros i sg' Hi. by apply (Hall (S i)).
Qed.

(** The stage a goroutine is in after its call. *)
Local Abbreviation after_call r :=
  (match r with Ret s => Called s | Panic v => Panicking v end).

Lemma goroutine_turn_Launched gens i g h p :
  goroutines h !! i = Some Launched →
  gens !! i = Some g →
  goroutine_turn gens i h p =
  (Returns (mkShared (results h) (waiter h)
              (<[i:=after_call (Generate g (world p)).1]> (goroutines h))),
   mkProc (Generate g (world p)).2
     (calls p ++ [(i, (Generate g (world p)).1)])).
Proof.
  intros Hst Hg. unfold goroutine_turn. rewrite Hst.
  unfold mbind, M_bind, unwinding, index, call_Generate. rewrite Hg.
  unfold mret at 1, M_ret at 1.
  by destruct (Generate g (world p)) as [[s|v] st].
Qed.

Lemma goroutine_turn_Called gens i s h p :
  goroutines h !! i = Some (Called s) →
  i < length (results h) →
  goroutine_turn gens i h p =
  (Returns (mkShared (<[i:=s]> (results h)) (waiter h)
              (<[i:=Stored]> (goroutines h))), p).
Proof.
  intros Hst Hi. unfold goroutine_turn. rewrite Hst.
  unfold mbind, M_bind, unwinding, store. by rewrite decide_True by done.
Qed.

Lemma goroutine_turn_Stored gens i h p :
  goroutines h !! i = Some Stored →
  goroutine_turn gens i h p =
  (Returns (mkShared (results h) (waiter h - 1)
              (<[i:=Finished]> (goroutines h))), p).
Proof. intros Hst. unfold goroutine_turn. by rewrite Hst. Qed.

(** The deferred [waiter.Done()] of a goroutine whose body has panicked. *)
Lemma goroutine_turn_Panicking gens i v h p :
  goroutines h !! i = Some (Panicking v) →
  goroutine_turn gens i h p =
  (Returns (mkShared (results h) (waiter h - 1)
              (<[i:=Dying v]> (goroutines h))), p).
Proof. intros Hst. unfold goroutine_turn. by rewrite Hst. Qed.

Lemma goroutine_turn_Dying gens i v h p :
  goroutines h !! i = Some (Dying v) →
  goroutine_turn gens i h p = (Crashes v, p).
Proof. intros Hst. unfold goroutine_turn. by rewrite Hst. Qed.

Lemma goroutine_turn_idle gens i h p :
  goroutines h !! i = Some Finished ∨ goroutines h !! i = None →
  goroutine_turn gens i h p = (Returns h, p).
Proof. intros [Hst|Hst]; unfold goroutine_turn; by rewrite Hst. Qed.

Lemma interleave_cons gens t turns h p :
  interleave gens (t :: turns) h p =
  match turn gens t h p with
  | (Returns h', p') => interleave gens turns h' p'
  | (Panics v, p') => (Panics v, p')
  | (Crashes v, p') => (Crashes v, p')
  | (Unfinished, p') => (Unfinished, p')
  end.
Proof. reflexivity. Qed.

(** An interleaving is run part after part. *)
Lemma interleave_app gens l1 l2 h p :
  interleave gens (l1 ++ l2) h p =
  (h' ← interleave gens l1 h; interleave gens l2 h') p.
Proof.
  revert h p. induction l1 as [|t l1 IH]; intros h p; [done |].
  rewrite <- app_comm_cons. unfold mbind at 1, M_bind at 1.
  rewrite !interleave_cons.
  destruct (turn gens t h p) as [[h'|v|v|] p']; [apply IH | done..].
Qed.

Lemma interleave_app_Returns gens l1 l2 h p h1 p1 :
  interleave gens l1 h p = (Returns h1, p1) →
  interleave gens (l1 ++ l2) h p = interleave gens l2 h1 p1.
Proof.
  intros Hrun. rewrite interleave_app. unfold mbind, M_bind. by rewrite Hrun.
Qed.

(** A turn makes at most one call, the call of [gens[i]] by goroutine [i],
    whatever the stages are. *)
Lemma turn_genuine gens st0 t h p :
  genuine gens st0 p → genuine gens st0 (turn gens t h p).2.
Proof.
  intros Hp. destruct t as [|i]; unfold turn; [done |].
  destruct (goroutines h !! i) as [[|s| | |v|v]|] eqn:Hst.
  - destruct (gens !! i) as [g|] eqn:Hg.
    + rewrite (goroutine_turn_Launched gens i g h p Hst Hg).
      by apply genuine_call.
    + unfold goroutine_turn. rewrite Hst.
      unfold mbind, M_bind, unwinding, index. by rewrite Hg.
  - unfold goroutine_turn. rewrite Hst.
    unfold mbind, M_bind, unwinding, store. by destruct (decide _).
  - by rewrite goroutine_turn_Stored.
  - by rewrite goroutine_turn_idle by auto.
  - by rewrite (goroutine_turn_Panicking _ _ v).
  - by rewrite (goroutine_turn_Dying _ _ v).
  - by rewrite goroutine_turn_idle by auto.
Qed.

Lemma interleave_genuine gens st0 turns h p :
  genuine gens st0 p → genuine gens st0 (interleave gens turns h p).2.
Proof.
  revert h p. induction turns as [|t turns IH]; intros h p Hp; [done |].
  rewrite interleave_cons.
  pose proof (turn_genuine gens st0 t h p Hp) as Hturn.
  destruct (turn gens t h p) as [[h'|v|v|] p']; try done.
  by apply IH.
Qed.

(** ** The fork/join executor: what every interleaving preserves *)

Lemma Inv_fork gens : Inv gens (fork gens) [].
Proof.
  unfold fork, waiter_Add. constructor; cbn [results waiter goroutines].
  - apply length_replicate.
  - simpl. lia.
  - simpl. lia.
  - constructor.
  - intros i. split; [intros Hi; by apply elem_of_nil in Hi |].
    intros (sg & Hsg & _). done.
  - intros i s Hi. done.
  - intros i s Hi. by apply elem_of_nil in Hi.
  - intros i [Hi|Hi]; done.
  - intros i v [Hi|Hi]; done.
  - intros i Hi _. by apply lookup_replicate_2.
  - intros i r Hi. by apply elem_of_nil in Hi.
Qed.

(** A round of the launching loop. *)
Lemma Inv_main_turn gens h ev : Inv gens h ev → Inv gens (main_turn gens h) ev.
Proof.
  intros HInv. unfold main_turn.
  destruct (decide (length (goroutines h) < length gens)) as [Hlt|]; [| done].
  destruct HInv
    as [Hres Hlaunched Hw Honce Hcalled Hpend Hslot Hret Hpan Hempty Hgen].
  assert (Hold : ∀ i sg, sg ≠ Launched →
            (goroutines h ++ [Launched]) !! i = Some sg →
            goroutines h !! i = Some sg).
  { intros i sg Hne Hi.
    apply lookup_snoc_Some in Hi as [[_ Hi]|[_ Hi]]; [done | congruence]. }
  constructor; cbn [results waiter goroutines]; try done.
  - rewrite length_app. simpl. lia.
  - rewrite finished_app. simpl. rewrite Hw. lia.
  - intros i. rewrite Hcalled. split; intros (sg & Hsg & Hne); exists sg.
    + split; [by apply lookup_app_l_Some | done].
    + split; [by apply Hold | done].
  - intros i s Hi. apply Hpend. by apply Hold.
  - intros i s Hi Hst. apply Hslot; [done |].
    destruct Hst as [Hst|Hst]; apply Hold in Hst; auto.
  - intros i Hst. apply Hret.
    destruct Hst as [Hst|Hst]; apply Hold in Hst; auto.
  - intros i v Hst. apply Hpan.
    destruct Hst as [Hst|Hst]; apply Hold in Hst; auto.
  - intros i Hi Hst. apply Hempty; [done |].
    destruct (goroutines h !! i) as [sg|] eqn:Hsg; [| done].
    by rewrite (lookup_app_l_Some _ _ _ _ Hsg) in Hst.
Qed.

(** Goroutine [i] has made its call, which ended as [r]. *)
Lemma Inv_call gens h ev i g r st :
  Inv gens h ev →
  goroutines h !! i = Some Launched →
  gens !! i = Some g →
  (Generate g st).1 = r →
  Inv gens (mkShared (results h) (waiter h)
              (<[i:=after_call r]> (goroutines h)))
    (ev ++ [(i, r)]).
Proof.
  intros [Hres Hlaunched Hw Honce Hcalled Hpend Hslot Hret Hpan Hempty Hgen]
    Hst Hg HG.
  assert (Hi : i < length (goroutines h)) by (by eapply lookup_lt_Some).
  assert (Hfresh : i ∉ ev.*1).
  { intros Hin. apply Hcalled in Hin as (sg & Hsg & Hne). congruence. }
  assert (Hnew : <[i:=after_call r]> (goroutines h) !! i = Some (after_call r))
    by (by apply list_lookup_insert_eq).
  constructor; cbn [results waiter goroutines].
  - done.
  - by rewrite length_insert.
  - pose proof (finished_insert _ _ (after_call r) _ Hst) as Hf.
    rewrite Hw. destruct r; simpl in Hf; lia.
  - rewrite fmap_app. change ([(i, r)].*1) with [i].
    apply NoDup_app. split; [done |].
    split; [| apply NoDup_singleton].
    intros x Hx Hxi. apply list_elem_of_singleton in Hxi. by subst x.
  - intros j. rewrite fmap_app. change ([(i, r)].*1) with [i].
    rewrite elem_of_app, list_elem_of_singleton. split.
    + intros [Hj| ->].
      * apply Hcalled in Hj as (sg & Hsg & Hne). exists sg. split; [| done].
        rewrite list_lookup_insert_ne; [done |]. intros ->. congruence.
      * exists (after_call r). split; [done | by destruct r].
    + intros (sg & Hsg & Hne). destruct (decide (i = j)) as [->|Hij]; [by right |].
      left. apply Hcalled. exists sg.
      by rewrite list_lookup_insert_ne in Hsg.
  - intros j s' Hj. apply elem_of_app. destruct (decide (i = j)) as [->|Hij].
    + rewrite Hnew in Hj. right. apply list_elem_of_singleton.
      destruct r; by simplify_eq.
    + rewrite list_lookup_insert_ne in Hj by done. left. by apply Hpend.
  - intros j s' Hj Hstage. destruct (decide (i = j)) as [->|Hij].
    + rewrite Hnew in Hstage. by destruct r, Hstage.
    + rewrite list_lookup_insert_ne in Hstage by done.
      apply elem_of_app in Hj as [Hj|Hj]; [by apply Hslot |].
      apply list_elem_of_singleton in Hj. congruence.
  - intros j Hstage. destruct (decide (i = j)) as [->|Hij].
    + rewrite Hnew in Hstage. by destruct r, Hstage.
    + rewrite list_lookup_insert_ne in Hstage by done.
      destruct (Hret j Hstage) as [s' Hs']. exists s'.
      apply elem_of_app. by left.
  - intros j v Hstage. apply elem_of_app. destruct (decide (i = j)) as [->|Hij].
    + rewrite Hnew in Hstage. right. apply list_elem_of_singleton.
      destruct r, Hstage as [Hs|Hs]; by simplify_eq.
    + rewrite list_lookup_insert_ne in Hstage by done. left. by apply Hpan.
  - intros j Hj Hs. apply Hempty; [done |].
    destruct (decide (i = j)) as [->|Hij]; [by rewrite Hst |].
    by rewrite list_lookup_insert_ne in Hs.
  - intros j r' Hj. apply elem_of_app in Hj as [Hj|Hj]; [by apply Hgen |].
    apply list_elem_of_singleton in Hj. injection Hj as -> ->.
    by exists g, st.
Qed.

(** Goroutine [i] has assigned its slot. *)
Lemma Inv_Stored gens h ev i s :
  Inv gens h ev →
  goroutines h !! i = Some (Called s) →
  Inv gens (mkShared (<[i:=s]> (results h)) (waiter h)
              (<[i:=Stored]> (goroutines h))) ev.
Proof.
  intros [Hres Hlaunched Hw Honce Hcalled Hpend Hslot Hret Hpan Hempty Hgen] Hst.
  assert (Hi : i < length (goroutines h)) by (by eapply lookup_lt_Some).
  constructor; cbn [results waiter goroutines]; try done.
  - by rewrite length_insert.
  - by rewrite length_insert.
  - pose proof (finished_insert _ _ Stored _ Hst) as Hf. simpl in Hf.
    rewrite Hw. lia.
  - intros j. rewrite Hcalled. destruct (decide (i = j)) as [->|Hij].
    + rewrite list_lookup_insert_eq by done. split; intros _; eauto.
    + by rewrite list_lookup_insert_ne by done.
  - intros j s' Hj. destruct (decide (i = j)) as [->|Hij].
    + by rewrite list_lookup_insert_eq in Hj by done.
    + rewrite list_lookup_insert_ne in Hj by done. by apply Hpend.
  - intros j s' Hj Hstage. destruct (decide (i = j)) as [->|Hij].
    + rewrite list_lookup_insert_eq by lia.
      assert (Heq : Ret s = Ret s')
        by (apply (NoDup_fst_agree ev j); [done | by apply Hpend | done]).
      by injection Heq as ->.
    + rewrite !list_lookup_insert_ne in * by done. by apply Hslot.
  - intros j Hstage. destruct (decide (i = j)) as [->|Hij].
    + exists s. by apply Hpend.
    + rewrite list_lookup_insert_ne in Hstage by done. by apply Hret.
  - intros j v Hstage. destruct (decide (i = j)) as [->|Hij].
    + rewrite list_lookup_insert_eq in Hstage by done. by destruct Hstage.
    + rewrite list_lookup_insert_ne in Hstage by done. by apply Hpan.
  - intros j Hj Hs. destruct (decide (i = j)) as [->|Hij].
    + by rewrite list_lookup_insert_eq in Hs by done.
    + rewrite list_lookup_insert_ne in Hs by done.
      rewrite list_lookup_insert_ne by done. by apply Hempty.
Qed.

(** Goroutine [i] has run its deferred [waiter.Done()]: after its
    assignment ([Stored], and it is [Finished]) or after the panic of its
    body ([Panicking v], and it is [Dying v]). *)
Lemma Inv_Done gens h ev i sg sg' :
  Inv gens h ev →
  goroutines h !! i = Some sg →
  (sg = Stored ∧ sg' = Finished) ∨ (∃ v, sg = Panicking v ∧ sg' = Dying v) →
  Inv gens (mkShared (results h) (waiter h - 1)
              (<[i:=sg']> (goroutines h))) ev.
Proof.
  intros [Hres Hlaunched Hw Honce Hcalled Hpend Hslot Hret Hpan Hempty Hgen]
    Hst Hsg.
  assert (Hi : i < length (goroutines h)) by (by eapply lookup_lt_Some).
  assert (Hnew : <[i:=sg']> (goroutines h) !! i = Some sg')
    by (by apply list_lookup_insert_eq).
  constructor; cbn [results waiter goroutines]; try done.
  - by rewrite length_insert.
  - pose proof (finished_insert _ _ sg' _ Hst) as Hf.
    rewrite Hw. destruct Hsg as [[-> ->]|(v & -> & ->)]; simpl in Hf; lia.
  - intros j. rewrite Hcalled. destruct (decide (i = j)) as [->|Hij].
    + rewrite Hnew, Hst. split; intros _; eexists; (split; [done |]);
        by destruct Hsg as [[-> ->]|(v & -> & ->)].
    + by rewrite list_lookup_insert_ne by done.
  - intros j s' Hj. destruct (decide (i = j)) as [->|Hij].
    + rewrite Hnew in Hj. by destruct Hsg as [[-> ->]|(v & -> & ->)].
    + rewrite list_lookup_insert_ne in Hj by done. by apply Hpend.
  - intros j s' Hj Hstage. destruct (decide (i = j)) as [->|Hij].
    + rewrite Hnew in Hstage.
      destruct Hsg as [[-> ->]|(v & -> & ->)]; [apply Hslot; auto |].
      by destruct Hstage.
    + rewrite list_lookup_insert_ne in Hstage by done. by apply Hslot.
  - intros j Hstage. destruct (decide (i = j)) as [->|Hij].
    + rewrite Hnew in Hstage.
      destruct Hsg as [[-> ->]|(v & -> & ->)]; [apply Hret; auto |].
      by destruct Hstage.
    + rewrite list_lookup_insert_ne in Hstage by done. by apply Hret.
  - intros j w Hstage. destruct (decide (i = j)) as [->|Hij].
    + rewrite Hnew in Hstage.
      destruct Hsg as [[-> ->]|(v & -> & ->)]; [by destruct Hstage |].
      apply Hpan. left. rewrite Hst.
      destruct Hstage as [Hs|Hs]; by simplify_eq.
    + rewrite list_lookup_insert_ne in Hstage by done. by apply Hpan.
  - intros j Hj Hs. destruct (decide (i = j)) as [->|Hij].
    + rewrite Hnew in Hs. apply Hempty; [done |]. rewrite Hst.
      by destruct Hsg as [[-> ->]|(v & -> & ->)].
    + rewrite list_lookup_insert_ne in Hs by done. by apply Hempty.
Qed.

(** One turn keeps the invariant, or it is the termination of the process
    for a goroutine that was dying; that turn makes no call. *)
Lemma Inv_turn gens t h ev p :
  Inv gens h ev →
  match turn gens t h p with
  | (Returns h', p') => ∃ ev',
      calls p' = calls p ++ ev' ∧ Inv gens h' (ev ++ ev')
  | (Crashes v, p') => p' = p ∧ ∃ k, goroutines h !! k = Some (Dying v)
  | _ => False
  end.
Proof.
  intros HInv. destruct t as [|i]; unfold turn.
  - exists []. rewrite !app_nil_r. split; [done | by apply Inv_main_turn].
  - assert (Hidle : ∃ ev', calls p = calls p ++ ev' ∧ Inv gens h (ev ++ ev'))
      by (exists []; by rewrite !app_nil_r).
    destruct (goroutines h !! i) as [[|s| | |v|v]|] eqn:Hst.
    + assert (Hi : i < length gens).
      { apply lookup_lt_Some in Hst. pose proof (inv_launched _ _ _ _ HInv). lia. }
      destruct (lookup_lt_is_Some_2 gens i Hi) as [g Hg].
      rewrite (goroutine_turn_Launched _ _ _ _ _ Hst Hg).
      exists [(i, (Generate g (world p)).1)]. split; [done |].
      by apply (Inv_call _ _ _ _ g _ (world p)).
    + rewrite (goroutine_turn_Called _ _ _ _ _ Hst).
      2: { apply lookup_lt_Some in Hst.
           pose proof (inv_launched _ _ _ _ HInv).
           pose proof (inv_results _ _ _ _ HInv). lia. }
      exists []. rewrite !app_nil_r. split; [done | by apply Inv_Stored].
    + rewrite (goroutine_turn_Stored _ _ _ _ Hst).
      exists []. rewrite !app_nil_r. split; [done |].
      apply (Inv_Done _ _ _ _ Stored); auto.
    + by rewrite goroutine_turn_idle by auto.
    + rewrite (goroutine_turn_Panicking _ _ _ _ _ Hst).
      exists []. rewrite !app_nil_r. split; [done |].
      apply (Inv_Done _ _ _ _ (Panicking v)); eauto.
    + rewrite (goroutine_turn_Dying _ _ _ _ _ Hst). eauto.
    + by rewrite goroutine_turn_idle by auto.
Qed.

(** Every interleaving keeps the invariant up to the termination of the
    process, if it comes to that. *)
Lemma Inv_interleave gens turns h ev p :
  Inv gens h ev →
  match interleave gens turns h p with
  | (Returns h', p') => ∃ ev',
      calls p' = calls p ++ ev' ∧ Inv gens h' (ev ++ ev')
  | (Crashes v, p') => ∃ ev' h' k,
      calls p' = calls p ++ ev' ∧ Inv gens h' (ev ++ ev')
      ∧ goroutines h' !! k = Some (Dying v)
  | _ => False
  end.
Proof.
  revert h ev p. induction turns as [|t turns IH]; intros h ev p HInv.
  - exists []. by rewrite !app_nil_r.
  - rewrite interleave_cons. pose proof (Inv_turn gens t h ev p HInv) as Hturn.
    destruct (turn gens t h p) as [[h1|v|v|] p1]; try done.
    + destruct Hturn as (ev1 & Hc1 & HInv1).
      specialize (IH h1 (ev ++ ev1) p1 HInv1).
      destruct (interleave gens turns h1 p1) as [[h2|v|v|] p2]; try done.
      * destruct IH as (ev2 & Hc2 & HInv2). exists (ev1 ++ ev2).
        rewrite Hc2, Hc1, <- !app_assoc. split; [done |].
        by rewrite <- app_assoc in HInv2.
      * destruct IH as (ev2 & h2 & k & Hc2 & HInv2 & Hk).
        exists (ev1 ++ ev2), h2, k.
        rewrite Hc2, Hc1, <- !app_assoc. split; [done |].
        by rewrite <- app_assoc in HInv2.
    + destruct Hturn as (-> & k & Hk). exists [], h, k.
      by rewrite !app_nil_r.
Qed.

(** How a call on record stands with the stage of its goroutine: the call
    returned and the goroutine holds the result or has assigned it to its
    slot, or the call panicked and the slot is as it was allocated. *)
Lemma Inv_outcome gens h ev i r :
  Inv gens h ev →
  (i, r) ∈ ev →
  ∃ sg, goroutines h !! i = Some sg ∧
    match r with
    | Ret s =>
        sg = Called s
        ∨ ((sg = Stored ∨ sg = Finished) ∧ results h !! i = Some s)
    | Panic v =>
        (sg = Panicking v ∨ sg = Dying v) ∧ results h !! i = Some ""
    end.
Proof.
  intros [Hres Hlaunched Hw Honce Hcalled Hpend Hslot Hret Hpan Hempty Hgen] Hi.
  assert (Hin : i ∈ ev.*1) by (apply list_elem_of_fmap; by exists (i, r)).
  apply Hcalled in Hin as (sg & Hsg & Hne). exists sg. split; [done |].
  assert (Hlt : i < length gens) by (apply lookup_lt_Some in Hsg; lia).
  destruct sg as [|s| | |v|v]; [done | | | | |].
  - rewrite <- (NoDup_fst_agree ev i _ _ Honce (Hpend _ _ Hsg) Hi). by left.
  - destruct (Hret i) as [s Hs]; [auto |].
    rewrite <- (NoDup_fst_agree ev i _ _ Honce Hs Hi). right. split; [auto |].
    apply Hslot; auto.
  - destruct (Hret i) as [s Hs]; [auto |].
    rewrite <- (NoDup_fst_agree ev i _ _ Honce Hs Hi). right. split; [auto |].
    apply Hslot; auto.
  - assert (Hv : (i, Panic v) ∈ ev) by (apply Hpan; auto).
    rewrite <- (NoDup_fst_agree ev i _ _ Honce Hv Hi). split; [auto |].
    apply Hempty; [done | by rewrite Hsg].
  - assert (Hv : (i, Panic v) ∈ ev) by (apply Hpan; auto).
    rewrite <- (NoDup_fst_agree ev i _ _ Honce Hv Hi). split; [auto |].
    apply Hempty; [done | by rewrite Hsg].
Qed.

(** At the barrier every goroutine was launched and has run its deferred
    [waiter.Done()], so every task was called once; the slot of a task
    whose call returned holds what it returned, and the slot of a task
    whose call panicked holds the empty string. *)
Lemma Inv_joined gens h ev :
  Inv gens h ev →
  length (goroutines h) = length gens →
  waiter h = 0%Z →
  ev.*1 ≡ₚ seq 0 (length gens)
  ∧ (∀ j out, (j, Ret out) ∈ ev → results h !! j = Some out)
  ∧ (∀ j v, (j, Panic v) ∈ ev → results h !! j = Some "").
Proof.
  intros HInv Hlen Hzero.
  assert (Hall : ∀ i sg, goroutines h !! i = Some sg → has_run_Done sg = true).
  { apply finished_all. pose proof (finished_le (goroutines h)).
    pose proof (inv_waiter _ _ _ _ HInv). lia. }
  split; [| split].
  - apply NoDup_Permutation; [apply (inv_once _ _ _ _ HInv) | apply NoDup_seq |].
    intros j. rewrite (inv_called _ _ _ _ HInv), elem_of_seq. split.
    + intros (sg & Hsg & _). apply lookup_lt_Some in Hsg. lia.
    + intros Hj. destruct (lookup_lt_is_Some_2 (goroutines h) j) as [sg Hsg];
        [lia |].
      exists sg. split; [done |]. intros ->. by specialize (Hall _ _ Hsg).
  - intros j out Hj.
    destruct (Inv_outcome gens h ev j _ HInv Hj) as (sg & Hsg & [->|[_ Hs]]);
      [by specialize (Hall _ _ Hsg) | done].
  - intros j v Hj.
    by destruct (Inv_outcome gens h ev j _ HInv Hj) as (sg & Hsg & _ & Hs).
Qed.

(** The fork/join executor unfolded: the interleaving, then the barrier. *)
Lemma forkJoinExecutor_Execute_unfold gens turns p :
  forkJoinExecutor_Execute turns gens p =
  match interleave gens turns (fork gens) p with
  | (Returns h, p') =>
      if decide (length (goroutines h) = length gens ∧ waiter h = 0%Z)
      then (Returns (String.concat "" (results h)), p')
      else (Unfinished, p')
  | (Panics v, p') => (Panics v, p')
  | (Crashes v, p') => (Crashes v, p')
  | (Unfinished, p') => (Unfinished, p')
  end.
Proof.
  unfold forkJoinExecutor_Execute, mbind, M_bind.
  destruct (interleave _ _ _ _) as [[h|v|v|] p']; try done.
  unfold waiter_Wait. by destruct (decide _).
Qed.

(** The process is the same whether one looks at the call or at the
    interleaving. *)
Lemma forkJoinExecutor_Execute_process gens turns p :
  (forkJoinExecutor_Execute turns gens p).2 =
  (interleave gens turns (fork gens) p).2.
Proof.
  rewrite forkJoinExecutor_Execute_unfold.
  destruct (interleave gens turns (fork gens) p) as [[h|v|v|] p']; try done.
  by destruct (decide _).
Qed.

Lemma forkJoinExecutor_Execute_genuine gens st0 turns p :
  genuine gens st0 p →
  genuine gens st0 (forkJoinExecutor_Execute turns gens p).2.
Proof.
  intros Hp. rewrite forkJoinExecutor_Execute_process.
  by apply interleave_genuine.
Qed.

(** What an interleaving of the fork/join executor comes to.  It returns
    the join of slots that hold, by task index, what the call of the task
    returned, and the empty string where the call panicked, every task
    having been called once; or the process was terminated on the panic of
    a [Generate] call; or the call is still under way.  No panic reaches
    the caller. *)
Lemma forkJoinExecutor_Execute_spec gens turns p :
  match forkJoinExecutor_Execute turns gens p with
  | (Returns s, p') => ∃ ev outs,
      calls p' = calls p ++ ev
      ∧ ev.*1 ≡ₚ seq 0 (length gens)
      ∧ s = String.concat "" outs
      ∧ length outs = length gens
      ∧ (∀ j out, (j, Ret out) ∈ ev → outs !! j = Some out)
      ∧ (∀ j v, (j, Panic v) ∈ ev → outs !! j = Some "")
      ∧ (∀ j r, (j, r) ∈ ev →
           ∃ g st, gens !! j = Some g ∧ (Generate g st).1 = r)
  | (Crashes v, p') => ∃ ev k g st,
      calls p' = calls p ++ ev
      ∧ NoDup ev.*1
      ∧ (∀ j, j ∈ ev.*1 → j < length gens)
      ∧ (k, Panic v) ∈ ev
      ∧ gens !! k = Some g ∧ (Generate g st).1 = Panic v
  | (Unfinished, p') => ∃ ev,
      calls p' = calls p ++ ev
      ∧ NoDup ev.*1
      ∧ (∀ j, j ∈ ev.*1 → j < length gens)
  | (Panics v, p') => False
  end.
Proof.
  rewrite forkJoinExecutor_Execute_unfold.
  pose proof (Inv_interleave gens turns (fork gens) [] p (Inv_fork gens)) as Hrun.
  assert (Hin : ∀ h ev, Inv gens h ev → ∀ j, j ∈ ev.*1 → j < length gens).
  { intros h ev HInv j Hj.
    apply (inv_called _ _ _ _ HInv) in Hj as (sg & Hsg & _).
    apply lookup_lt_Some in Hsg. pose proof (inv_launched _ _ _ _ HInv). lia. }
  destruct (interleave gens turns (fork gens) p) as [[h|v|v|] p']; try done.
  - destruct Hrun as (ev & Hc & HInv). rewrite app_nil_l in HInv.
    destruct (decide _) as [[Hlen Hzero]|].
    + destruct (Inv_joined gens h ev HInv Hlen Hzero) as (Hperm & Hslot & Hnone).
      exists ev, (results h). split; [done |]. split; [done |]. split; [done |].
      split; [apply (inv_results _ _ _ _ HInv) |]. split; [done |].
      split; [done |]. apply (inv_genuine _ _ _ _ HInv).
    + exists ev. split; [done |]. split; [apply (inv_once _ _ _ _ HInv) |].
      by apply (Hin h).
  - destruct Hrun as (ev & h & k & Hc & HInv & Hk). rewrite app_nil_l in HInv.
    assert (Hv : (k, Panic v) ∈ ev) by (apply (inv_panicked _ _ _ _ HInv); auto).
    destruct (inv_genuine _ _ _ _ HInv _ _ Hv) as (g & st & Hg & HG).
    exists ev, k, g, st. split; [done |].
    split; [apply (inv_once _ _ _ _ HInv) |]. split; [by apply (Hin h) |].
    done.
Qed.

(** ** The fork/join executor: every call can be brought to its end *)

(** The turns of the launching loop, the goroutines standing still. *)
Lemma interleave_main_turns gens n h p :
  length (goroutines h) ≤ length gens →
  ∃ h',
    interleave gens (replicate n MainTurn) h p = (Returns h', p)
    ∧ length (results h') = length (results h)
    ∧ length (goroutines h') = (length (goroutines h) + n) `min` length gens.
Proof.
  revert h. induction n as [|n IH]; intros h Hle.
  - exists h. split; [done |]. split; [done | lia].
  - rewrite replicate_S, interleave_cons. unfold turn, mret, M_ret, main_turn.
    destruct (decide (length (goroutines h) < length gens)) as [Hlt|Hge].
    + destruct (IH (mkShared (results h) (waiter h) (goroutines h ++ [Launched])))
        as (h' & Hrun & Hres & Hlen).
      { cbn [goroutines]. rewrite length_app. simpl. lia. }
      exists h'. split; [done |]. split; [done |].
      rewrite Hlen. cbn [goroutines]. rewrite length_app. simpl. lia.
    + destruct (IH h Hle) as (h' & Hrun & Hres & Hlen).
      exists h'. split; [done |]. split; [done | lia].
Qed.

(** Three turns bring a launched goroutine to the end of its body, or the
    process to its end. *)
Lemma interleave_finish_goroutine gens i h p :
  i < length (goroutines h) →
  length (goroutines h) ≤ length gens →
  length (results h) = length gens →
  match interleave gens
          [GoroutineTurn i; GoroutineTurn i; GoroutineTurn i] h p with
  | (Returns h', p') =>
      goroutines h' = <[i:=Finished]> (goroutines h)
      ∧ length (results h') = length gens
  | (Crashes v, p') => True
  | _ => False
  end.
Proof.
  intros Hi Hle Hres.
  destruct (lookup_lt_is_Some_2 gens i) as [g Hg]; [lia |].
  destruct (lookup_lt_is_Some_2 (goroutines h) i Hi) as [sg Hsg].
  destruct sg as [|s| | |v|v].
  - rewrite interleave_cons. unfold turn at 1.
    rewrite (goroutine_turn_Launched _ _ _ _ _ Hsg Hg).
    destruct (Generate g (world p)) as [[s|v] st]; cbn [fst snd].
    + rewrite interleave_cons. unfold turn at 1.
      rewrite (goroutine_turn_Called _ _ s)
        by (cbn [goroutines results]; first [by apply list_lookup_insert_eq | lia]).
      rewrite interleave_cons. unfold turn at 1. cbn [goroutines results waiter].
      rewrite goroutine_turn_Stored
        by (cbn [goroutines]; apply list_lookup_insert_eq; by rewrite length_insert).
      cbn [interleave]. unfold mret, M_ret. cbn [goroutines results waiter].
      by rewrite !list_insert_insert_eq, length_insert.
    + rewrite interleave_cons. unfold turn at 1.
      rewrite (goroutine_turn_Panicking _ _ v)
        by (cbn [goroutines]; by apply list_lookup_insert_eq).
      rewrite interleave_cons. unfold turn at 1. cbn [goroutines results waiter].
      by rewrite (goroutine_turn_Dying _ _ v)
        by (cbn [goroutines]; apply list_lookup_insert_eq;
            by rewrite length_insert).
  - rewrite interleave_cons. unfold turn at 1.
    rewrite (goroutine_turn_Called _ _ _ _ _ Hsg) by lia.
    rewrite interleave_cons. unfold turn at 1.
    rewrite goroutine_turn_Stored
      by (cbn [goroutines]; by apply list_lookup_insert_eq).
    rewrite interleave_cons. unfold turn at 1. cbn [goroutines results waiter].
    rewrite goroutine_turn_idle
      by (left; cbn [goroutines]; apply list_lookup_insert_eq;
          by rewrite length_insert).
    cbn [interleave]. unfold mret, M_ret. cbn [goroutines results waiter].
    by rewrite !list_insert_insert_eq, length_insert.
  - rewrite interleave_cons. unfold turn at 1.
    rewrite (goroutine_turn_Stored _ _ _ _ Hsg).
    rewrite interleave_cons. unfold turn at 1.
    rewrite goroutine_turn_idle
      by (left; cbn [goroutines]; by apply list_lookup_insert_eq).
    rewrite interleave_cons. unfold turn at 1.
    rewrite goroutine_turn_idle
      by (left; cbn [goroutines]; by apply list_lookup_insert_eq).
    done.
  - rewrite interleave_cons. unfold turn at 1.
    rewrite goroutine_turn_idle by auto.
    rewrite interleave_cons. unfold turn at 1.
    rewrite goroutine_turn_idle by auto.
    rewrite interleave_cons. unfold turn at 1.
    rewrite goroutine_turn_idle by auto.
    cbn [interleave]. unfold mret, M_ret. by rewrite list_insert_id.
  - rewrite interleave_cons. unfold turn at 1.
    rewrite (goroutine_turn_Panicking _ _ _ _ _ Hsg).
    rewrite interleave_cons. unfold turn at 1.
    by rewrite (goroutine_turn_Dying _ _ v)
      by (cbn [goroutines]; by apply list_lookup_insert_eq).
  - rewrite interleave_cons. unfold turn at 1.
    by rewrite (goroutine_turn_Dying _ _ _ _ _ Hsg).
Qed.

(** The goroutines of [l], once all are launched, brought to their end
    one after the other. *)
Lemma interleave_finish_goroutines gens (l : list nat) h p :
  (∀ i, i ∈ l → i < length gens) →
  length (goroutines h) = length gens →
  length (results h) = length gens →
  match interleave gens
          (l ≫= λ i, [GoroutineTurn i; GoroutineTurn i; GoroutineTurn i])
          h p with
  | (Returns h', p') =>
      length (goroutines h') = length gens
      ∧ length (results h') = length gens
      ∧ ∀ j, j ∈ l ∨ goroutines h !! j = Some Finished →
             goroutines h' !! j = Some Finished
  | (Crashes v, p') => True
  | _ => False
  end.
Proof.
  revert h p. induction l as [|i l IH]; intros h p Hl Hlen Hres.
  - split; [done |]. split; [done |]. intros j [Hj|Hj]; [| done].
    by apply elem_of_nil in Hj.
  - rewrite bind_cons, interleave_app. unfold mbind at 1, M_bind at 1.
    pose proof (interleave_finish_goroutine gens i h p) as Hone.
    destruct (interleave gens [_; _; _] h p) as [[h1|v|v|] p1];
      try (apply Hone; (done || lia || (rewrite Hlen; apply Hl; left))).
    destruct Hone as [Hst1 Hres1]; [rewrite Hlen; apply Hl; left | lia | done |].
    assert (Hlen1 : length (goroutines h1) = length gens)
      by (by rewrite Hst1, length_insert).
    specialize (IH h1 p1).
    destruct (interleave gens _ h1 p1) as [[h2|v|v|] p2];
      try (apply IH; (done || (intros; apply Hl; by right))).
    destruct IH as (Hlen2 & Hres2 & Hfin);
      [intros; apply Hl; by right | done | done |].
    split; [done |]. split; [done |]. intros j Hj. apply Hfin.
    destruct (decide (j = i)) as [->|Hji].
    + right. rewrite Hst1. apply list_lookup_insert_eq. rewrite Hlen.
      apply Hl. left.
    + destruct Hj as [Hj|Hj].
      * apply elem_of_cons in Hj as [Hj|Hj]; [done | by left].
      * right. rewrite Hst1. by rewrite list_lookup_insert_ne.
Qed.

(** From any point of an interleaving, the turns of [finish] launch what
    is left to launch and bring every goroutine to the end of its body,
    unless the process is terminated on the way. *)
Lemma interleave_finish gens h ev p :
  Inv gens h ev →
  match interleave gens (finish gens) h p with
  | (Returns h', p') => ∃ ev',
      calls p' = calls p ++ ev'
      ∧ Inv gens h' (ev ++ ev')
      ∧ length (goroutines h') = length gens
      ∧ ∀ i sg, goroutines h' !! i = Some sg → sg = Finished
  | (Crashes v, p') => True
  | _ => False
  end.
Proof.
  intros HInv.
  pose proof (Inv_interleave gens (finish gens) h ev p HInv) as Hall.
  pose proof (inv_launched _ _ _ _ HInv) as Hle.
  pose proof (inv_results _ _ _ _ HInv) as Hres.
  destruct (interleave_main_turns gens (length gens) h p)
    as (h2 & Hrun2 & Hres2 & Hlen2); [done |].
  unfold finish in *.
  rewrite (interleave_app_Returns _ _ _ _ _ _ _ Hrun2) in *.
  assert (Hfin := interleave_finish_goroutines gens (seq 0 (length gens)) h2 p).
  destruct (interleave gens _ h2 p) as [[h3|v|v|] p3]; try done;
    [| exfalso; apply Hfin; [intros i Hi; apply elem_of_seq in Hi |..]; lia..].
  destruct Hfin as (Hlen3 & _ & Hfin);
    [intros i Hi; apply elem_of_seq in Hi; lia | lia | lia |].
  destruct Hall as (ev' & Hc & HInv3). exists ev'.
  split; [done |]. split; [done |]. split; [done |].
  intros i sg Hsg.
  assert (Hi : i < length gens) by (apply lookup_lt_Some in Hsg; lia).
  rewrite Hfin in Hsg; [by injection Hsg as <- |].
  left. apply elem_of_seq. lia.
Qed.

(** After any interleaving, [finish] brings the call to its end: it returns
    or the process has been terminated on a panic. *)
Lemma forkJoinExecutor_Execute_finish gens turns p :
  (forkJoinExecutor_Execute (turns ++ finish gens) gens p).1 ≠ Unfinished.
Proof.
  rewrite forkJoinExecutor_Execute_unfold.
  rewrite interleave_app. unfold mbind, M_bind.
  pose proof (Inv_interleave gens turns (fork gens) [] p (Inv_fork gens)) as H1.
  destruct (interleave gens turns (fork gens) p) as [[h1|v|v|] p1]; try done.
  destruct H1 as (ev1 & _ & HInv1).
  pose proof (interleave_finish gens h1 _ p1 HInv1) as Hfin.
  destruct (interleave gens (finish gens) h1 p1) as [[h3|v|v|] p3]; try done.
  destruct Hfin as (ev3 & _ & HInv3 & Hlen3 & Hfin).
  rewrite decide_True; [done |]. split; [done |].
  rewrite (inv_waiter _ _ _ _ HInv3).
  assert (Hall : finished (goroutines h3) = length (goroutines h3)).
  { apply finished_all. intros i sg Hsg. by rewrite (Hfin _ _ Hsg). }
  lia.
Qed.

(** When a call has panicked, [finish] brings the process to its
    termination: the barrier may open on the way, but the dying goroutine
    gets its turn. *)
Lemma forkJoinExecutor_Execute_finish_panicked gens turns p k v :
  (k, Panic v) ∈ drop (length (calls p))
                   (calls (forkJoinExecutor_Execute turns gens p).2) →
  ∃ w, (forkJoinExecutor_Execute (turns ++ finish gens) gens p).1 = Crashes w.
Proof.
  rewrite forkJoinExecutor_Execute_process.
  rewrite forkJoinExecutor_Execute_unfold.
  rewrite interleave_app. unfold mbind, M_bind.
  pose proof (Inv_interleave gens turns (fork gens) [] p (Inv_fork gens)) as H1.
  destruct (interleave gens turns (fork gens) p) as [[h1|w|w|] p1]; try done.
  - destruct H1 as (ev1 & Hc1 & HInv1). cbn [snd]. rewrite Hc1, drop_app_length.
    intros Hk. rewrite app_nil_l in HInv1.
    pose proof (interleave_finish gens h1 _ p1 HInv1) as Hfin.
    destruct (interleave gens (finish gens) h1 p1) as [[h3|w|w|] p3];
      [| done | by exists w | done].
    destruct Hfin as (ev3 & _ & HInv3 & Hlen3 & Hfin).
    assert (Hk3 : (k, Panic v) ∈ ev1 ++ ev3) by (apply elem_of_app; by left).
    destruct (Inv_outcome gens h3 _ k _ HInv3 Hk3) as (sg & Hsg & [Hst|Hst] & _);
      rewrite (Hfin _ _ Hsg) in Hst; done.
  - intros _. by exists w.
Qed.

(** ** Generators whose result does not depend on the state *)

Lemma serial_loop_always_returns gens outs c i buffer p :
  Forall2 always_returns gens outs →
  i + c = length gens →
  (for_loop c i (serial_body gens) buffer p).1 =
  Returns (buffer +:+ String.concat "" (drop i outs)).
Proof.
  intros Hfix. revert i buffer p. induction c as [|c IH]; intros i buffer p Hlen.
  - rewrite drop_ge by (rewrite <- (Forall2_length _ _ _ Hfix); lia).
    simpl. by rewrite append_nil_r.
  - destruct (lookup_lt_is_Some_2 gens i) as [g Hg]; [lia |].
    destruct (Forall2_lookup_l _ _ _ _ _ Hfix Hg) as (out & Hout & Hret).
    rewrite for_loop_S, (serial_body_round _ _ _ _ _ Hg).
    specialize (Hret (world p)).
    destruct (Generate g (world p)) as [[s|v] st]; [| done].
    injection Hret as ->. rewrite IH by lia.
    by rewrite (drop_S _ _ _ Hout), Join_cons, append_assoc.
Qed.

Lemma serialExecutor_Execute_always_returns gens outs p :
  Forall2 always_returns gens outs →
  (serialExecutor_Execute gens p).1 = Returns (String.concat "" outs).
Proof.
  intros Hfix. unfold serialExecutor_Execute. rewrite bind_mret.
  by rewrite (serial_loop_always_returns _ _ _ _ _ _ Hfix).
Qed.

Lemma forkJoinExecutor_Execute_always_returns gens outs turns p :
  Forall2 always_returns gens outs →
  (forkJoinExecutor_Execute turns gens p).1 ≠ Unfinished →
  (forkJoinExecutor_Execute turns gens p).1 = Returns (String.concat "" outs).
Proof.
  intros Hfix Hend.
  pose proof (forkJoinExecutor_Execute_spec gens turns p) as Hrun.
  destruct (forkJoinExecutor_Execute turns gens p) as [[s|v|v|] p']; try done.
  - destruct Hrun as (ev & outs' & _ & Hperm & -> & Hl & Hslot & _ & Hg).
    cbn [fst]. do 2 f_equal. apply list_eq. intros j.
    destruct (decide (j < length gens)) as [Hj|Hj].
    + assert (Hjs : j ∈ ev.*1) by (rewrite Hperm, elem_of_seq; lia).
      apply list_elem_of_fmap in Hjs as ([j' r] & -> & Hr). cbn [fst].
      destruct (Hg _ _ Hr) as (g & st & Hgj & HG).
      destruct (Forall2_lookup_l _ _ _ _ _ Hfix Hgj) as (out' & Hout' & Hret).
      specialize (Hret st). rewrite HG in Hret. rewrite Hret in Hr.
      by rewrite (Hslot _ _ Hr), Hout'.
    + rewrite !lookup_ge_None_2; [done | |]; try lia.
      rewrite <- (Forall2_length _ _ _ Hfix). lia.
  - destruct Hrun as (ev & k & g & st & _ & _ & _ & _ & Hgk & HG).
    destruct (Forall2_lookup_l _ _ _ _ _ Hfix Hgk) as (out & _ & Hret).
    specialize (Hret st). congruence.
Qed.

(** ** The executors' contracts *)

(** C3: the calls on record of the serial executor are calls of the
    generators of the list, each made through the index on record on the
    state the calls before it have left.  When every call it makes returns,
    these are the calls through the indices [0, 1, ..., N-1], each once and
    in that order: the generator at index 0 called on the initial state, the
    one at index 1 on the state that call left, and so on; and what
    [Execute] returns is the results of these calls concatenated in the
    same order. *)
Theorem serialExecutor_Execute_each_once_in_order gens st :
  let R := serialExecutor_Execute gens (start st) in
  Generate_through gens (calls R.2).*1 st = Some ((calls R.2).*2, world R.2)
  ∧ (all_returned R.2 →
     ∃ outs,
       length outs = length gens
       ∧ calls R.2 = zip (seq 0 (length gens)) (Ret <$> outs)
       ∧ Generate_through gens (seq 0 (length gens)) st =
         Some (Ret <$> outs, world R.2)
       ∧ R.1 = Returns (String.concat "" outs)).
Proof.
  intros R.
  assert (Hgen : Generate_through gens (calls R.2).*1 st =
                 Some ((calls R.2).*2, world R.2))
    by (by apply serialExecutor_Execute_genuine).
  split; [done |]. revert Hgen.
  unfold R, all_returned, serialExecutor_Execute.
  rewrite bind_mret.
  destruct (serial_loop_spec gens (length gens) 0 "" (start st)) as [outs Hspec];
    [done |].
  destruct (for_loop _ _ _ _ _) as [[s|v|v|] p']; try done.
  - destruct Hspec as (Hl & -> & Hc). intros Hgen _. exists outs.
    cbn [fst snd] in *. cbn [start calls app] in Hc. rewrite Hc in Hgen |- *.
    rewrite fst_zip, snd_zip in Hgen
      by (rewrite length_fmap, length_seq; lia).
    split; [done |]. split; [done |]. split; [done | reflexivity].
  - destruct Hspec as (_ & Hc). cbn [snd]. rewrite Hc. intros _ Hall.
    apply Forall_app in Hall as [_ Hall]. apply Forall_app in Hall as [_ Hall].
    apply Forall_inv in Hall. destruct Hall as [a Ha]. discriminate Ha.
Qed.

(** C4, as the code has it: when the generators before index [k], run in
    order, all return and the generator at index [k] then panics with [v],
    the serial executor stops there: the panic [v] itself, not wrapped in
    anything, unwinds [Execute], which returns no string, and the calls made
    are those through the indices [0, ..., k] and no other. *)
Theorem serialExecutor_Execute_stops_at_first_panic
    gens st k g v s_k p_k st' :
  serialExecutor_Execute (take k gens) (start st) = (Returns s_k, p_k) →
  gens !! k = Some g →
  Generate g (world p_k) = (Panic v, st') →
  let R := serialExecutor_Execute gens (start st) in
  R = (Panics v, mkProc st' (calls p_k ++ [(k, Panic v)]))
  ∧ (calls R.2).*1 = seq 0 (S k).
Proof.
  intros Hpre Hg HG R.
  assert (Hk : k < length gens) by (by eapply lookup_lt_Some).
  assert (Hlen : length (take k gens) = k) by (apply length_take_le; lia).
  unfold serialExecutor_Execute in Hpre. rewrite bind_mret, Hlen in Hpre.
  assert (Hcalls : (calls p_k).*1 = seq 0 k).
  { destruct (serial_loop_spec (take k gens) k 0 "" (start st)) as [outs Hspec];
      [by rewrite Hlen |].
    rewrite Hpre in Hspec. destruct Hspec as (Hl & _ & ->).
    cbn [start calls app]. apply fst_zip.
    rewrite length_fmap, length_seq. lia. }
  rewrite (for_loop_ext _ _ _ (serial_body gens)) in Hpre.
  2: { intros j x q Hj.
       destruct (lookup_lt_is_Some_2 gens j) as [g' Hg']; [lia |].
       rewrite (serial_body_round gens j g' x q Hg').
       apply serial_body_round. by rewrite lookup_take_lt by lia. }
  assert (HR : R = (Panics v, mkProc st' (calls p_k ++ [(k, Panic v)]))).
  { unfold R, serialExecutor_Execute. rewrite bind_mret.
    replace (length gens) with (k + S (length gens - S k)) by lia.
    rewrite for_loop_add. unfold mbind, M_bind. rewrite Hpre.
    rewrite for_loop_S, (serial_body_round _ _ _ _ _ Hg). cbn [Nat.add].
    by rewrite HG. }
  split; [done |]. rewrite HR. cbn [snd calls].
  rewrite fmap_app, Hcalls, seq_S. done.
Qed.

(** C2: whatever the interleaving of the launching loop and of the
    goroutines, the call can be brought to its end, and the calls on record
    are calls of the generators of the list, each made through the index on
    record on the state the calls before it have left.  Once the call has
    come to its end with no call having panicked, every task has been
    called once, in an order that is any order, and what is returned is the
    join of the slice [outs] in which the slot of index [j] holds what the
    call of the generator at index [j] returned, wherever that call stands
    among the calls: the text follows the task indices, not the order of
    completion. *)
Theorem forkJoinExecutor_Execute_joins_in_task_order gens turns st :
  let R := forkJoinExecutor_Execute turns gens (start st) in
  (forkJoinExecutor_Execute (turns ++ finish gens) gens (start st)).1
    ≠ Unfinished
  ∧ Generate_through gens (calls R.2).*1 st = Some ((calls R.2).*2, world R.2)
  ∧ (R.1 ≠ Unfinished →
     all_returned R.2 →
     (calls R.2).*1 ≡ₚ seq 0 (length gens)
     ∧ ∃ outs,
         length outs = length gens
         ∧ (∀ j out, (j, Ret out) ∈ calls R.2 → outs !! j = Some out)
         ∧ R.1 = Returns (String.concat "" outs)).
Proof.
  intros R. split; [apply forkJoinExecutor_Execute_finish |].
  split; [by apply forkJoinExecutor_Execute_genuine |].
  unfold R, all_returned.
  pose proof (forkJoinExecutor_Execute_spec gens turns (start st)) as Hrun.
  destruct (forkJoinExecutor_Execute turns gens (start st))
    as [[s|v|v|] p']; try done.
  - destruct Hrun as (ev & outs & Hc & Hperm & -> & Hl & Hslot & _).
    cbn [start calls app] in Hc. cbn [fst snd]. rewrite Hc. intros _ _.
    split; [done |]. by exists outs.
  - destruct Hrun as (ev & k & g & st0 & Hc & _ & _ & Hk & _).
    cbn [start calls app] in Hc. cbn [snd]. rewrite Hc.
    intros _ Hall. rewrite Forall_forall in Hall.
    destruct (Hall _ Hk) as [a Ha]. discriminate Ha.
Qed.

(** C5, as the code has it: under every interleaving the fork/join
    executor reports no failure.  No panic of a generator unwinds into the
    caller of [Execute].  When [Execute] returns, every task has been
    called once and the text is the join, by task index, of what the calls
    that returned have returned, with the empty string in the place of
    every task whose call panicked: the failures are passed over in
    silence.  When the process is terminated, it is with the panic value of
    a call on record, as the generator raised it.  And once a call has
    panicked, the interleaving can be continued so that the process is
    terminated, whatever the other calls have returned. *)
Theorem forkJoinExecutor_Execute_reports_no_failure gens turns st :
  let R := forkJoinExecutor_Execute turns gens (start st) in
  Generate_through gens (calls R.2).*1 st = Some ((calls R.2).*2, world R.2)
  ∧ match R.1 with
    | Returns s =>
        (calls R.2).*1 ≡ₚ seq 0 (length gens)
        ∧ ∃ outs,
            length outs = length gens
            ∧ (∀ j out, (j, Ret out) ∈ calls R.2 → outs !! j = Some out)
            ∧ (∀ j v, (j, Panic v) ∈ calls R.2 → outs !! j = Some "")
            ∧ s = String.concat "" outs
    | Crashes v => ∃ k, (k, Panic v) ∈ calls R.2
    | Panics v => False
    | Unfinished => True
    end
  ∧ (∀ k v, (k, Panic v) ∈ calls R.2 →
       ∃ w, (forkJoinExecutor_Execute (turns ++ finish gens) gens
               (start st)).1 = Crashes w).
Proof.
  intros R. split; [by apply forkJoinExecutor_Execute_genuine |]. split.
  - unfold R.
    pose proof (forkJoinExecutor_Execute_spec gens turns (start st)) as Hrun.
    destruct (forkJoinExecutor_Execute turns gens (start st))
      as [[s|v|v|] p']; try done; cbn [fst snd].
    + destruct Hrun as (ev & outs & Hc & Hperm & -> & Hl & Hslot & Hnone & _).
      cbn [start calls app] in Hc. rewrite Hc.
      split; [done |]. by exists outs.
    + destruct Hrun as (ev & k & g & st0 & Hc & _ & _ & Hk & _).
      cbn [start calls app] in Hc. rewrite Hc. by exists k.
  - intros k v Hk.
    by apply (forkJoinExecutor_Execute_finish_panicked gens turns (start st) k v).
Qed.

(** C1, as the code has it: on generators each of which returns the same
    text in whatever state it is called, the serial executor and the
    fork/join executor, under every interleaving that brings the call to
    its end, return the same string: the generators' texts concatenated in
    the order of the task list. *)
Theorem executors_agree_on_state_independent_generators gens outs turns st :
  Forall2 always_returns gens outs →
  (forkJoinExecutor_Execute turns gens (start st)).1 ≠ Unfinished →
  (serialExecutor_Execute gens (start st)).1 = Returns (String.concat "" outs)
  ∧ (forkJoinExecutor_Execute turns gens (start st)).1 =
    Returns (String.concat "" outs).
Proof.
  intros Hfix Hend. split.
  - by apply serialExecutor_Execute_always_returns.
  - by apply forkJoinExecutor_Execute_always_returns.
Qed.

(** ** Empty task lists and repeated generators *)

(** With no task there is no goroutine to launch and none to run. *)
Lemma interleave_nil turns p :
  interleave [] turns (fork ([] : list (Generator Impl))) p =
  (Returns (fork ([] : list (Generator Impl))), p).
Proof.
  induction turns as [|[|i] turns IH]; [done | |]; by rewrite interleave_cons.
Qed.

Lemma forkJoinExecutor_Execute_nil turns p :
  forkJoinExecutor_Execute turns [] p = (Returns "", p).
Proof.
  rewrite forkJoinExecutor_Execute_unfold. by rewrite interleave_nil.
Qed.

(** The loop [for i := 0; i < n; i++ { generators[i] = generator }]. *)
Lemma fill_loop_spec {A} (x : A) (c i : nat) (l : list A) p :
  i + c = length l →
  for_loop c i (λ i l, store l i x) l p =
  (Returns (take i l ++ replicate c x), p).
Proof.
  revert i l. induction c as [|c IH]; intros i l Hlen.
  - simpl. rewrite take_ge by lia. by rewrite app_nil_r.
  - rewrite for_loop_S. unfold store. rewrite decide_True by lia.
    unfold mret at 1, M_ret at 1.
    rewrite IH by (rewrite length_insert; lia).
    rewrite (take_S_r _ _ x) by (apply list_lookup_insert_eq; lia).
    rewrite take_insert_ge by lia. by rewrite <- app_assoc.
Qed.

(** For a count that is not negative, the task list handed to the executor
    is [n] times the generator. *)
Lemma executeGeneratorRepeatedly_delegates
    (executor : GeneratorExecutor St Impl) g (n : Z) p :
  (0 ≤ n)%Z →
  executeGeneratorRepeatedly executor g n p =
  Execute executor (replicate (Z.to_nat n) g) p.
Proof.
  intros Hn. unfold executeGeneratorRepeatedly, make, mbind, M_bind.
  rewrite decide_False by lia. unfold mret at 1, M_ret at 1.
  rewrite fill_loop_spec by (by rewrite length_replicate).
  done.
Qed.

(** C8: for a count [n >= 0], [executeGeneratorRepeatedly] hands the
    executor a task list of length [n] whose every element is the generator
    it was given, and its result is that of the executor's [Execute] on that
    list; with [n = 0] and either executor of the package it returns the
    empty string and no [Generate] call is made; with [n = 3] and a
    generator that always returns ["x"] it returns ["xxx"] under the serial
    executor and, once the call has come to its end, under the fork/join
    executor. *)
Theorem executeGeneratorRepeatedly_delegates_n_copies
    (executor : GeneratorExecutor St Impl) g gx (n : Z) turns turns0 p :
  (0 ≤ n)%Z →
  always_returns gx "x" →
  (executeGeneratorRepeatedly (NewForkJoinExecutor turns) gx 3 p).1
    ≠ Unfinished →
  (∃ generators,
      length generators = Z.to_nat n
      ∧ Forall (λ x, x = g) generators
      ∧ executeGeneratorRepeatedly executor g n p =
        Execute executor generators p)
  ∧ executeGeneratorRepeatedly NewSerialExecutor g 0 p = (Returns "", p)
  ∧ executeGeneratorRepeatedly (NewForkJoinExecutor turns0) g 0 p =
    (Returns "", p)
  ∧ (executeGeneratorRepeatedly NewSerialExecutor gx 3 p).1 = Returns "xxx"
  ∧ (executeGeneratorRepeatedly (NewForkJoinExecutor turns) gx 3 p).1 =
    Returns "xxx".
Proof.
  intros Hn Hx Hend.
  assert (Hfix : Forall2 always_returns (replicate 3 gx) ["x"; "x"; "x"])
    by (repeat constructor; done).
  split; [| split; [| split; [| split]]].
  - exists (replicate (Z.to_nat n) g). split; [apply length_replicate |].
    split; [| by apply executeGeneratorRepeatedly_delegates].
    apply Forall_forall. intros x Hin. by apply elem_of_replicate in Hin as [-> _].
  - rewrite executeGeneratorRepeatedly_delegates by lia. reflexivity.
  - rewrite executeGeneratorRepeatedly_delegates by lia.
    apply forkJoinExecutor_Execute_nil.
  - rewrite executeGeneratorRepeatedly_delegates by lia.
    apply (serialExecutor_Execute_always_returns _ _ _ Hfix).
  - rewrite executeGeneratorRepeatedly_delegates in Hend |- * by lia.
    by apply (forkJoinExecutor_Execute_always_returns _ _ _ _ Hfix).
Qed.

(** C9: on the empty task list the serial executor and the fork/join
    executor, under every interleaving, return the empty string, without a
    panic and without a [Generate] call; the fork/join executor has
    launched no goroutine. *)
Theorem Execute_empty_task_list turns p :
  serialExecutor_Execute [] p = (Returns "", p)
  ∧ forkJoinExecutor_Execute turns [] p = (Returns "", p)
  ∧ ∃ h, interleave [] turns (fork ([] : list (Generator Impl))) p =
         (Returns h, p)
         ∧ goroutines h = [].
Proof.
  split; [done |]. split; [apply forkJoinExecutor_Execute_nil |].
  eexists. split; [apply interleave_nil | done].
Qed.

(** C10: with a negative count, [executeGeneratorRepeatedly] panics in
    [make], before any generator is called and whatever the executor: it
    returns no string.  From a count that is not negative the allocation
    and the filling loop go through, and the result is the executor's. *)
Theorem executeGeneratorRepeatedly_negative_count_panics
    (executor : GeneratorExecutor St Impl) g (n : Z) p :
  (n < 0)%Z →
  executeGeneratorRepeatedly executor g n p =
    (Panics makeslice_len_out_of_range, p)
  ∧ (¬ ∃ s p', executeGeneratorRepeatedly executor g n p = (Returns s, p'))
  ∧ ∀ m : Z, (0 ≤ m)%Z →
      executeGeneratorRepeatedly executor g m p =
      Execute executor (replicate (Z.to_nat m) g) p.
Proof.
  intros Hn.
  assert (Hpanic : executeGeneratorRepeatedly executor g n p =
                   (Panics makeslice_len_out_of_range, p)).
  { unfold executeGeneratorRepeatedly, make, mbind, M_bind.
    by rewrite decide_True by done. }
  split; [done |]. split.
  - intros (s & p' & Hret). congruence.
  - intros m Hm. by apply executeGeneratorRepeatedly_delegates.
Qed.

End ExecutorFacts.

(** ** The contracts on the sample generators *)

Ltac solve_all_returned :=
  unfold all_returned; vm_compute;
  repeat (constructor; [eexists; reflexivity |]); constructor.

Ltac solve_always_returns :=
  repeat (constructor; [intros ?; reflexivity |]); constructor.

Ltac solve_ended := intros Hend; vm_compute in Hend; discriminate Hend.

Lemma serialExecutor_Execute_each_once_in_order_witness :
  all_returned (serialExecutor_Execute Sample_Generate flip_flip (start false)).2
  ∧ (serialExecutor_Execute Sample_Generate flip_flip (start false)).1 =
    Returns "ab"
  ∧ ∃ outs,
      length outs = length flip_flip
      ∧ calls (serialExecutor_Execute Sample_Generate flip_flip (start false)).2 =
        zip (seq 0 (length flip_flip)) (Ret <$> outs)
      ∧ Generate_through Sample_Generate flip_flip (seq 0 (length flip_flip))
          false =
        Some (Ret <$> outs,
              world (serialExecutor_Execute Sample_Generate flip_flip
                       (start false)).2)
      ∧ (serialExecutor_Execute Sample_Generate flip_flip (start false)).1 =
        Returns (String.concat "" outs).
Proof.
  assert (H : all_returned
    (serialExecutor_Execute Sample_Generate flip_flip (start false)).2)
    by solve_all_returned.
  split; [exact H |]. split; [reflexivity |].
  exact (proj2 (serialExecutor_Execute_each_once_in_order Sample_Generate
                  flip_flip false) H).
Defined.

Lemma serialExecutor_Execute_stops_at_first_panic_witness :
  serialExecutor_Execute Sample_Generate (take 1 a_boom_c) (start false) =
    (Returns "a", mkProc false [(0, Ret "a")])
  ∧ serialExecutor_Execute Sample_Generate a_boom_c (start false) =
    (Panics (errorString "boom"),
     mkProc false ([(0, Ret "a")] ++ [(1, Panic (errorString "boom"))]))
  ∧ (calls (serialExecutor_Execute Sample_Generate a_boom_c (start false)).2).*1
    = seq 0 2.
Proof.
  split; [reflexivity |].
  exact (serialExecutor_Execute_stops_at_first_panic Sample_Generate
           a_boom_c false 1 (Some (Boom "boom")) (errorString "boom") "a"
           (mkProc false [(0, Ret "a")]) false eq_refl eq_refl eq_refl).
Defined.

Lemma forkJoinExecutor_Execute_joins_in_task_order_witness :
  (forkJoinExecutor_Execute Sample_Generate (one_by_one flip_flip [1; 0])
     flip_flip (start false)).1 ≠ Unfinished
  ∧ all_returned
      (forkJoinExecutor_Execute Sample_Generate (one_by_one flip_flip [1; 0])
         flip_flip (start false)).2
  ∧ calls (forkJoinExecutor_Execute Sample_Generate
             (one_by_one flip_flip [1; 0]) flip_flip (start false)).2 =
    [(1, Ret "a"); (0, Ret "b")]
  ∧ (forkJoinExecutor_Execute Sample_Generate (one_by_one flip_flip [1; 0])
       flip_flip (start false)).1 = Returns "ba"
  ∧ (calls (forkJoinExecutor_Execute Sample_Generate
              (one_by_one flip_flip [1; 0]) flip_flip (start false)).2).*1
    ≡ₚ seq 0 (length flip_flip)
  ∧ ∃ outs,
      length outs = length flip_flip
      ∧ (∀ j out,
           (j, Ret out) ∈ calls (forkJoinExecutor_Execute Sample_Generate
                                   (one_by_one flip_flip [1; 0]) flip_flip
                                   (start false)).2 →
           outs !! j = Some out)
      ∧ (forkJoinExecutor_Execute Sample_Generate (one_by_one flip_flip [1; 0])
           flip_flip (start false)).1 = Returns (String.concat "" outs).
Proof.
  assert (Hend : (forkJoinExecutor_Execute Sample_Generate
                    (one_by_one flip_flip [1; 0]) flip_flip
                    (start false)).1 ≠ Unfinished) by solve_ended.
  assert (H : all_returned
    (forkJoinExecutor_Execute Sample_Generate (one_by_one flip_flip [1; 0])
       flip_flip (start false)).2)
    by solve_all_returned.
  split; [exact Hend |]. split; [exact H |]. split; [reflexivity |].
  split; [reflexivity |].
  exact (proj2 (proj2 (forkJoinExecutor_Execute_joins_in_task_order
                         Sample_Generate flip_flip
                         (one_by_one flip_flip [1; 0]) false)) Hend H).
Defined.

Lemma forkJoinExecutor_Execute_reports_no_failure_witness :
  forkJoinExecutor_Execute Sample_Generate boom_before_exit a_boom_c
    (start false) =
    (Returns "ac",
     mkProc false
       [(0, Ret "a"); (2, Ret "c"); (1, Panic (errorString "boom"))])
  ∧ (1, Panic (errorString "boom")) ∈
      calls (forkJoinExecutor_Execute Sample_Generate boom_before_exit a_boom_c
               (start false)).2
  ∧ ∃ w,
      (forkJoinExecutor_Execute Sample_Generate
         (boom_before_exit ++ finish a_boom_c) a_boom_c (start false)).1 =
      Crashes w.
Proof.
  assert (Hk : (1, Panic (errorString "boom")) ∈
                 calls (forkJoinExecutor_Execute Sample_Generate
                          boom_before_exit a_boom_c (start false)).2)
    by (apply list_elem_of_lookup; exists 2; reflexivity).
  split; [reflexivity |]. split; [exact Hk |].
  exact (proj2 (proj2 (forkJoinExecutor_Execute_reports_no_failure
                         Sample_Generate a_boom_c boom_before_exit false))
           1 (errorString "boom") Hk).
Defined.

Lemma executors_agree_on_state_independent_generators_witness :
  Forall2 (always_returns Sample_Generate) a_b_c ["a"; "b"; "c"]
  ∧ (forkJoinExecutor_Execute Sample_Generate mixed_turns a_b_c (start false)).1
      ≠ Unfinished
  ∧ (serialExecutor_Execute Sample_Generate a_b_c (start false)).1 =
    Returns (String.concat "" ["a"; "b"; "c"])
  ∧ (forkJoinExecutor_Execute Sample_Generate mixed_turns a_b_c (start false)).1 =
    Returns (String.concat "" ["a"; "b"; "c"]).
Proof.
  assert (Hfix : Forall2 (always_returns Sample_Generate) a_b_c ["a"; "b"; "c"])
    by solve_always_returns.
  assert (Hend : (forkJoinExecutor_Execute Sample_Generate mixed_turns a_b_c
                    (start false)).1 ≠ Unfinished) by solve_ended.
  split; [exact Hfix |]. split; [exact Hend |].
  exact (executors_agree_on_state_independent_generators Sample_Generate
           a_b_c ["a"; "b"; "c"] mixed_turns false Hfix Hend).
Defined.

Lemma executeGeneratorRepeatedly_delegates_n_copies_witness :
  (0 ≤ 2)%Z
  ∧ always_returns Sample_Generate (Some (Const "x")) "x"
  ∧ (executeGeneratorRepeatedly (NewForkJoinExecutor Sample_Generate mixed_turns)
       (Some (Const "x")) 3 (start false)).1 ≠ Unfinished
  ∧ (executeGeneratorRepeatedly (NewSerialExecutor Sample_Generate)
       (Some (Const "x")) 3 (start false)).1 = Returns "xxx"
  ∧ (executeGeneratorRepeatedly (NewForkJoinExecutor Sample_Generate mixed_turns)
       (Some (Const "x")) 3 (start false)).1 = Returns "xxx".
Proof.
  assert (Hn : (0 ≤ 2)%Z) by lia.
  assert (Hx : always_returns Sample_Generate (Some (Const "x")) "x")
    by (intros ?; reflexivity).
  assert (Hend : (executeGeneratorRepeatedly
                    (NewForkJoinExecutor Sample_Generate mixed_turns)
                    (Some (Const "x")) 3 (start false)).1 ≠ Unfinished)
    by solve_ended.
  split; [exact Hn |]. split; [exact Hx |]. split; [exact Hend |].
  exact (proj2 (proj2 (proj2
    (executeGeneratorRepeatedly_delegates_n_copies Sample_Generate
       (NewSerialExecutor Sample_Generate) (Some (Const "ab"))
       (Some (Const "x")) 2 mixed_turns [GoroutineTurn 0] (start false)
       Hn Hx Hend)))).
Defined.

Lemma executeGeneratorRepeatedly_negative_count_panics_witness :
  (-1 < 0)%Z
  ∧ executeGeneratorRepeatedly (NewForkJoinExecutor Sample_Generate mixed_turns)
      (Some (Const "x")) (-1) (start false) =
    (Panics makeslice_len_out_of_range, start false).
Proof.
  assert (Hn : (-1 < 0)%Z) by lia.
  split; [exact Hn |].
  exact (proj1 (executeGeneratorRepeatedly_negative_count_panics
    (NewForkJoinExecutor Sample_Generate mixed_turns) (Some (Const "x")) (-1)
    (start false) Hn)).
Defined.

(** ** Where the code departs from the stated contracts *)

(** C1 as stated fails: two calls of a generator that reads and changes a
    shared state all return, yet the serial executor returns ["ab"] and the
    fork/join executor, when the second goroutine runs before the first,
    returns ["ba"]. *)
Lemma executors_disagree_on_shared_state :
  all_returned (serialExecutor_Execute Sample_Generate flip_flip (start false)).2
  ∧ all_returned
      (forkJoinExecutor_Execute Sample_Generate (one_by_one flip_flip [1; 0])
         flip_flip (start false)).2
  ∧ (serialExecutor_Execute Sample_Generate flip_flip (start false)).1 =
    Returns "ab"
  ∧ (forkJoinExecutor_Execute Sample_Generate (one_by_one flip_flip [1; 0])
       flip_flip (start false)).1 = Returns "ba"
  ∧ (serialExecutor_Execute Sample_Generate flip_flip (start false)).1 ≠
    (forkJoinExecutor_Execute Sample_Generate (one_by_one flip_flip [1; 0])
       flip_flip (start false)).1.
Proof.
  split; [solve_all_returned |]. split; [solve_all_returned |].
  split; [reflexivity |]. split; [reflexivity |].
  intros Heq. vm_compute in Heq. discriminate Heq.
Qed.

(** C4 as stated fails: on [a_boom_c] the serial executor stops at index 1,
    but what reaches the caller is the generator's own panic value, not a
    [GeneratorError] around it. *)
Lemma serialExecutor_Execute_panic_is_not_wrapped :
  serialExecutor_Execute Sample_Generate a_boom_c (start false) =
    (Panics (errorString "boom"),
     mkProc false [(0, Ret "a"); (1, Panic (errorString "boom"))])
  ∧ ¬ ∃ v,
      failure (serialExecutor_Execute Sample_Generate a_boom_c (start false)).1
        = Some v
      ∧ wraps v (errorString "boom").
Proof.
  split; [reflexivity |]. intros (v & Hv & msg & Hw).
  vm_compute in Hv. congruence.
Qed.

(** C5 as stated fails on [a_boom_c].  With the goroutines launched and
    then run one after the other in the order of the tasks, the panic of
    the second one terminates the process: the third generator is never
    called.  With the goroutines of the tasks 0 and 2 run first, [Execute]
    returns ["ac"], the join of the two results that there are, once the
    goroutine of task 1 has run its deferred [waiter.Done()]; the process
    is terminated when that goroutine takes one more turn.  And under no
    interleaving is a [GeneratorError] around the panic value reported, or
    anything else than ["ac"] returned. *)
Lemma forkJoinExecutor_Execute_panic_is_passed_over :
  forkJoinExecutor_Execute Sample_Generate (one_by_one a_boom_c [0; 1; 2])
    a_boom_c (start false) =
    (Crashes (errorString "boom"),
     mkProc false [(0, Ret "a"); (1, Panic (errorString "boom"))])
  ∧ (2 ∉ (calls (forkJoinExecutor_Execute Sample_Generate
                   (one_by_one a_boom_c [0; 1; 2]) a_boom_c
                   (start false)).2).*1)
  ∧ forkJoinExecutor_Execute Sample_Generate boom_before_exit a_boom_c
      (start false) =
    (Returns "ac",
     mkProc false
       [(0, Ret "a"); (2, Ret "c"); (1, Panic (errorString "boom"))])
  ∧ forkJoinExecutor_Execute Sample_Generate
      (boom_before_exit ++ [GoroutineTurn 1]) a_boom_c (start false) =
    (Crashes (errorString "boom"),
     mkProc false
       [(0, Ret "a"); (2, Ret "c"); (1, Panic (errorString "boom"))])
  ∧ ∀ turns,
      (∀ s, (forkJoinExecutor_Execute Sample_Generate turns a_boom_c
               (start false)).1 = Returns s → s = "ac")
      ∧ ¬ ∃ v,
          failure (forkJoinExecutor_Execute Sample_Generate turns a_boom_c
                     (start false)).1 = Some v
          ∧ wraps v (errorString "boom").
Proof.
  split; [reflexivity |]. split; [| split; [reflexivity |]].
  { intros Hin. vm_compute in Hin.
    repeat (apply elem_of_cons in Hin as [Hin|Hin]; [discriminate Hin |]).
    by apply elem_of_nil in Hin. }
  split; [reflexivity |]. intros turns.
  pose proof (forkJoinExecutor_Execute_spec Sample_Generate a_boom_c turns
                (start false)) as Hrun.
  assert (Hown : ∀ j r g (st : bool),
            a_boom_c !! j = Some g → (Generate Sample_Generate g st).1 = r →
            (j = 0 ∧ r = Ret "a") ∨ (j = 1 ∧ r = Panic (errorString "boom"))
            ∨ (j = 2 ∧ r = Ret "c")).
  { intros [|[|[|j]]] r g st Hg <-; [| | | done]; injection Hg as <-; auto. }
  destruct (forkJoinExecutor_Execute Sample_Generate turns a_boom_c (start false))
    as [[s|v|v|] p']; try done; cbn [fst failure].
  - destruct Hrun as (ev & outs & _ & Hperm & -> & Hl & Hslot & Hnone & Hgen).
    split; [| by intros (v & Hv & _)]. intros s' Hs. injection Hs as <-.
    assert (Hcalled : ∀ j, j < 3 → ∃ r, (j, r) ∈ ev).
    { intros j Hj. assert (Hin : j ∈ ev.*1) by (rewrite Hperm, elem_of_seq; simpl; lia).
      apply list_elem_of_fmap in Hin as ([j' r] & -> & Hr). by exists r. }
    assert (H0 : outs !! 0 = Some "a").
    { destruct (Hcalled 0) as [r Hr]; [lia |].
      destruct (Hgen _ _ Hr) as (g & st & Hg & HG).
      destruct (Hown _ _ _ _ Hg HG) as [[_ ->]|[[? _]|[? _]]]; [| done..].
      by apply Hslot. }
    assert (H1 : outs !! 1 = Some "").
    { destruct (Hcalled 1) as [r Hr]; [lia |].
      destruct (Hgen _ _ Hr) as (g & st & Hg & HG).
      destruct (Hown _ _ _ _ Hg HG) as [[? _]|[[_ ->]|[? _]]]; [done | | done].
      by apply (Hnone _ _ Hr). }
    assert (H2 : outs !! 2 = Some "c").
    { destruct (Hcalled 2) as [r Hr]; [lia |].
      destruct (Hgen _ _ Hr) as (g & st & Hg & HG).
      destruct (Hown _ _ _ _ Hg HG) as [[? _]|[[? _]|[_ ->]]]; [done.. |].
      by apply Hslot. }
    destruct outs as [|o0 [|o1 [|o2 [|]]]]; try done.
    by injection H0 as ->; injection H1 as ->; injection H2 as ->.
  - split; [done |]. intros (w & Hw & msg & Hwrap). injection Hw as <-.
    destruct Hrun as (ev & k & g & st & _ & _ & _ & _ & Hg & HG).
    destruct (Hown _ _ _ _ Hg HG) as [[_ ?]|[[_ ?]|[_ ?]]]; congruence.
  - split; [done |]. by intros (w & Hw & _).
Qed.

(** * Further properties *)

(** ** Rendering of [GeneratorError], continued *)

Lemma count_LF_app (s t : string) :
  count_LF (s +:+ t) = count_LF s + count_LF t.
Proof.
  induction s as [|c s IH]; [done |].
  rewrite append_cons. cbn [count_LF]. rewrite IH. lia.
Qed.

Lemma lines_layer (m rest : string) :
  lines (m +:+ LF +:+ "caused by " +:+ rest) = lines m + lines rest.
Proof. unfold lines. rewrite !count_LF_app. simpl. lia. Qed.

Lemma rooted_wrap_chain (msgs : list string) (leaf : error) :
  rooted (wrap_chain msgs leaf) = rooted leaf.
Proof. induction msgs as [|m msgs IH]; [done | exact IH]. Qed.

(** [Error()] returns on a rooted chain and panics on the others. *)
Lemma error_Error_rooted (e : error) :
  if rooted e then returned (error_Error e)
  else error_Error e = Panic nil_dereference.
Proof.
  revert e. fix IH 1. intros [s|s|[m [c|]]].
  - by exists s.
  - by exists s.
  - specialize (IH c). cbn [rooted]. rewrite error_Error_wrap.
    destruct (rooted c).
    + destruct IH as [t ->]. by eexists.
    + by rewrite IH.
  - done.
Qed.

(** X1: [Error()] called on an error returns exactly when its chain of
    causes ends in an error that is not a [GeneratorError]; when some layer
    has a nil [Cause], the call panics with the nil dereference however
    many layers are wrapped around that one, also when that layer was built
    by [generatorError] with a nil cause. *)
Theorem error_Error_returns_iff_rooted
    {Arg : Type} (Sprintf : string → list Arg → string)
    (format : string) (args : list Arg)
    (e : error) (msgs : list string) :
  match error_Error e with
  | Ret _ => rooted e = true
  | Panic v => rooted e = false ∧ v = nil_dereference
  end
  ∧ error_Error (wrap_chain msgs (generatorError Sprintf None format args)) =
    Panic nil_dereference.
Proof.
  split.
  - pose proof (error_Error_rooted e) as H. destruct (rooted e).
    + by destruct H as [t ->].
    + by rewrite H.
  - pose proof (error_Error_rooted
                  (wrap_chain msgs (generatorError Sprintf None format args)))
      as H.
    by rewrite rooted_wrap_chain in H.
Qed.

(** X2: the text of a chain of [GeneratorError]s around a cause that
    renders as [c] has as many lines as its messages and [c] have together,
    and it ends with [c]: every layer adds its own message, nothing of the
    cause's text is lost. *)
Theorem error_Error_chain_lines (msgs : list string) (leaf : error) (c : string) :
  error_Error leaf = Ret c →
  ∃ text,
    error_Error (wrap_chain msgs leaf) = Ret text
    ∧ lines text = sum_list (lines <$> msgs) + lines c
    ∧ ends_with text c.
Proof.
  intros Hleaf. exists (chain_text msgs c).
  split; [by apply error_Error_wrap_chain |].
  induction msgs as [|m msgs [IHl [p IHe]]].
  - split; [done | by exists ""].
  - change (chain_text (m :: msgs) c)
      with (m +:+ LF +:+ "caused by " +:+ chain_text msgs c).
    split.
    + rewrite lines_layer, IHl.
      change (sum_list (lines <$> m :: msgs))
        with (lines m + sum_list (lines <$> msgs)).
      lia.
    + exists (m +:+ LF +:+ "caused by " +:+ p).
      rewrite IHe at 1. by rewrite !append_assoc.
Qed.

Lemma error_Error_chain_lines_witness :
  error_Error (errorString "invalid token") = Ret "invalid token"
  ∧ ∃ text,
      error_Error (wrap_chain ["generating"; "building pattern"]
                     (errorString "invalid token")) = Ret text
      ∧ lines text = 3
      ∧ ends_with text "invalid token".
Proof.
  split; [reflexivity |].
  exact (error_Error_chain_lines ["generating"; "building pattern"]
           (errorString "invalid token") "invalid token" eq_refl).
Defined.

(** ** The executors, continued *)

Section ExecutorMore.
Context {St Impl : Type} (Impl_Generate : Impl → St → go string * St).

Implicit Types (p q : Proc St) (g : Generator Impl) (h : Shared).
Implicit Types (generators gens : list (Generator Impl)).

Local Abbreviation Generate := (Generate Impl_Generate).
Local Abbreviation always_returns := (always_returns Impl_Generate).
Local Abbreviation serial_body := (serial_body Impl_Generate).
Local Abbreviation serialExecutor_Execute :=
  (serialExecutor_Execute Impl_Generate).
Local Abbreviation goroutine_turn := (goroutine_turn Impl_Generate).
Local Abbreviation turn := (turn Impl_Generate).
Local Abbreviation interleave := (interleave Impl_Generate).
Local Abbreviation Inv := (Inv Impl_Generate).
Local Abbreviation forkJoinExecutor_Execute :=
  (forkJoinExecutor_Execute Impl_Generate).
Local Abbreviation NewSerialExecutor := (NewSerialExecutor Impl_Generate).
Local Abbreviation NewForkJoinExecutor := (NewForkJoinExecutor Impl_Generate).

(** X5: at any point of any interleaving, also after a call has panicked
    and as long as the process has not been terminated, the counter of the
    wait group is the number of goroutines, launched or not yet, that have
    not run their deferred [waiter.Done()]: it stays between 0 and N, so
    [Done] never makes it negative, and it is zero exactly when all N
    goroutines have been launched and have run [Done].  When no goroutine
    has panicked, that is when all N goroutines have been launched and are
    over. *)
Theorem waiter_counts_unfinished gens turns p h p' :
  interleave gens turns (fork gens) p = (Returns h, p') →
  waiter h = (Z.of_nat (length gens) - Z.of_nat (finished (goroutines h)))%Z
  ∧ (0 ≤ waiter h ≤ Z.of_nat (length gens))%Z
  ∧ (waiter h = 0%Z ↔
     length (goroutines h) = length gens
     ∧ ∀ i sg, goroutines h !! i = Some sg → has_run_Done sg = true)
  ∧ ((∀ i sg, goroutines h !! i = Some sg → is_panicking sg = false) →
     (waiter h = 0%Z ↔
      length (goroutines h) = length gens
      ∧ ∀ i sg, goroutines h !! i = Some sg → sg = Finished)).
Proof.
  intros Hrun.
  pose proof (Inv_interleave Impl_Generate gens turns (fork gens) [] p
                (Inv_fork Impl_Generate gens)) as HInv.
  rewrite Hrun in HInv. destruct HInv as (ev & _ & HInv).
  pose proof (inv_waiter _ _ _ _ HInv) as Hw.
  pose proof (inv_launched _ _ _ _ HInv) as Hle.
  pose proof (finished_le (goroutines h)) as Hfin.
  assert (Hzero : waiter h = 0%Z ↔
            length (goroutines h) = length gens
            ∧ ∀ i sg, goroutines h !! i = Some sg → has_run_Done sg = true).
  { split.
    - intros Hzero.
      assert (Hall : finished (goroutines h) = length (goroutines h)) by lia.
      split; [lia | by apply finished_all].
    - intros [Hlen Hall]. apply finished_all in Hall. lia. }
  split; [done |]. split; [lia |]. split; [done |].
  intros Hcalm. rewrite Hzero. split; intros [Hlen Hall]; (split; [done |]);
    intros i sg Hsg.
  - specialize (Hall _ _ Hsg). specialize (Hcalm _ _ Hsg). by destruct sg.
  - by rewrite (Hall _ _ Hsg).
Qed.

(** Once every goroutine has been launched and is over, no turn changes
    anything. *)
Lemma interleave_idle gens turns h p :
  length (goroutines h) = length gens →
  (∀ i sg, goroutines h !! i = Some sg → sg = Finished) →
  interleave gens turns h p = (Returns h, p).
Proof.
  intros Hlen Hall. induction turns as [|[|i] turns IH]; [done | |].
  - rewrite interleave_cons. unfold turn, mret, M_ret, main_turn.
    by rewrite decide_False by lia.
  - rewrite interleave_cons. unfold turn. rewrite goroutine_turn_idle; [done |].
    destruct (goroutines h !! i) as [sg|] eqn:Hsg; [left | by right].
    by rewrite (Hall _ _ Hsg).
Qed.

(** X6: once the fork/join executor has returned and no call has
    panicked, no further turn changes its outcome, the generators' state or
    the calls on record: no goroutine is left running behind a returned
    [Execute].  (After a panic this fails: the process is terminated behind
    a returned [Execute].) *)
Theorem forkJoinExecutor_Execute_stable gens turns more st s :
  (forkJoinExecutor_Execute turns gens (start st)).1 = Returns s →
  all_returned (forkJoinExecutor_Execute turns gens (start st)).2 →
  forkJoinExecutor_Execute (turns ++ more) gens (start st) =
  forkJoinExecutor_Execute turns gens (start st).
Proof.
  unfold all_returned.
  rewrite !forkJoinExecutor_Execute_unfold, interleave_app.
  unfold mbind, M_bind.
  pose proof (Inv_interleave Impl_Generate gens turns (fork gens) []
                (start st) (Inv_fork Impl_Generate gens)) as HInv.
  destruct (interleave gens turns (fork gens) (start st))
    as [[h|v|v|] p1]; try done.
  destruct HInv as (ev & Hc & HInv). cbn [start calls app] in Hc.
  rewrite app_nil_l in HInv.
  destruct (decide (length (goroutines h) = length gens ∧ waiter h = 0%Z))
    as [[Hlen Hzero]|]; [| done].
  cbn [fst snd]. rewrite Hc. intros _ Hret.
  assert (Hall : ∀ i sg, goroutines h !! i = Some sg → sg = Finished).
  { intros i sg Hsg.
    assert (Hdone : has_run_Done sg = true).
    { revert i sg Hsg. apply finished_all.
      pose proof (inv_waiter _ _ _ _ HInv).
      pose proof (finished_le (goroutines h)). lia. }
    destruct sg as [|s'| | |v|v]; try done.
    assert (Hv : (i, Panic v) ∈ ev)
      by (apply (inv_panicked _ _ _ _ HInv); auto).
    rewrite Forall_forall in Hret. destruct (Hret _ Hv) as [a Ha].
    discriminate Ha. }
  rewrite interleave_idle by done. by rewrite decide_True by done.
Qed.

(** ** The serial executor on a task list in two parts *)

Lemma serial_body_out gens i buffer p :
  gens !! i = None →
  serial_body gens i buffer p = (Panics index_out_of_range, p).
Proof.
  intros Hg. unfold serial_body, index, mbind, M_bind. by rewrite Hg.
Qed.

(** The loop over the second part of a list is the loop over that part
    alone, but for the indices and for what the buffer holds already. *)
Lemma serial_loop_shift (l1 l2 : list (Generator Impl)) c i b b' p q :
  world p = world q →
  observable (for_loop c (length l1 + i) (serial_body (l1 ++ l2)) (b +:+ b') p) =
  match for_loop c i (serial_body l2) b' q with
  | (Returns s, q') => (Returns (b +:+ s), world q')
  | (c', q') => (c', world q')
  end.
Proof.
  revert i b' p q. induction c as [|c IH]; intros i b' p q Hw.
  - unfold observable. simpl. by rewrite Hw.
  - rewrite !for_loop_S.
    assert (Hl : (l1 ++ l2) !! (length l1 + i) = l2 !! i).
    { rewrite lookup_app_r by lia. f_equal. lia. }
    destruct (l2 !! i) as [g|] eqn:Hg.
    + rewrite (serial_body_round _ _ _ g _ _ Hl).
      rewrite (serial_body_round _ _ _ g _ _ Hg). rewrite Hw.
      destruct (Generate g (world q)) as [[s|v] st]; [| done].
      rewrite append_assoc, <- Nat.add_succ_r. by apply IH.
    + rewrite (serial_body_out _ _ _ _ Hl), (serial_body_out _ _ _ _ Hg).
      unfold observable. simpl. by rewrite Hw.
Qed.

Lemma serial_body_app_l (l1 l2 : list (Generator Impl)) j buffer p :
  j < length l1 →
  serial_body (l1 ++ l2) j buffer p = serial_body l1 j buffer p.
Proof.
  intros Hj. destruct (lookup_lt_is_Some_2 l1 j Hj) as [g Hg].
  rewrite (serial_body_round _ _ _ g _ _ Hg).
  apply serial_body_round. by apply lookup_app_l_Some.
Qed.

Lemma serialExecutor_Execute_app_observable (l1 l2 : list (Generator Impl)) p :
  observable (serialExecutor_Execute (l1 ++ l2) p) =
  and_then (serialExecutor_Execute l1 p)
    (λ st, serialExecutor_Execute l2 (start st)).
Proof.
  unfold serialExecutor_Execute, and_then. rewrite !bind_mret.
  rewrite length_app, for_loop_add. unfold mbind, M_bind.
  rewrite (for_loop_ext _ _ _ (serial_body l1))
    by (intros j x q Hj; apply serial_body_app_l; lia).
  destruct (for_loop (length l1) 0 (serial_body l1) "" p)
    as [[s1|v|v|] p1]; try done.
  rewrite <- (append_nil_r s1) at 1.
  rewrite (Nat.add_comm 0 (length l1)).
  rewrite (serial_loop_shift l1 l2 _ 0 s1 "" p1 (start (world p1))) by done.
  by destruct (for_loop (length l2) 0 (serial_body l2) "" (start (world p1)))
    as [[s2|v|v|] p2].
Qed.

(** X7: the serial executor on a task list in two parts is the serial
    executor on the first part and then, when that returns, on the second
    part from the state reached, the two texts put together; a panic in
    either part is the panic of the whole.  So repeating a generator
    [n + m] times serially is repeating it [n] times and then [m] times. *)
Theorem serialExecutor_Execute_app (l1 l2 : list (Generator Impl)) g
    (n m : Z) p :
  observable (serialExecutor_Execute (l1 ++ l2) p) =
    and_then (serialExecutor_Execute l1 p)
      (λ st, serialExecutor_Execute l2 (start st))
  ∧ ((0 ≤ n)%Z → (0 ≤ m)%Z →
     observable (executeGeneratorRepeatedly NewSerialExecutor g (n + m) p) =
     and_then (executeGeneratorRepeatedly NewSerialExecutor g n p)
       (λ st, executeGeneratorRepeatedly NewSerialExecutor g m (start st))).
Proof.
  split; [apply serialExecutor_Execute_app_observable |].
  intros Hn Hm. rewrite !executeGeneratorRepeatedly_delegates by lia.
  assert (Hext : ∀ st,
    executeGeneratorRepeatedly NewSerialExecutor g m (start st) =
    serialExecutor_Execute (replicate (Z.to_nat m) g) (start st))
    by (intros st; by rewrite executeGeneratorRepeatedly_delegates by lia).
  rewrite Z2Nat.inj_add, replicate_add by lia.
  unfold NewSerialExecutor. cbn [Execute].
  rewrite serialExecutor_Execute_app_observable. unfold and_then.
  destruct (serialExecutor_Execute (replicate (Z.to_nat n) g) p)
    as [[s1|v|v|] p1]; try done.
  by rewrite Hext.
Qed.

(** ** Repeating a generator whose result is fixed *)

(** X8: for every count [n >= 0] and every generator that always returns
    the text [out], [executeGeneratorRepeatedly] returns [out] repeated [n]
    times: under the serial executor, and under the fork/join executor for
    every interleaving once the call has come to its end, to which
    [finish] brings any interleaving. *)
Theorem executeGeneratorRepeatedly_n_fold g out (n : Z) turns p :
  (0 ≤ n)%Z →
  always_returns g out →
  (executeGeneratorRepeatedly NewSerialExecutor g n p).1 =
    Returns (String.concat "" (replicate (Z.to_nat n) out))
  ∧ ((executeGeneratorRepeatedly (NewForkJoinExecutor turns) g n p).1
       ≠ Unfinished →
     (executeGeneratorRepeatedly (NewForkJoinExecutor turns) g n p).1 =
       Returns (String.concat "" (replicate (Z.to_nat n) out)))
  ∧ (executeGeneratorRepeatedly
       (NewForkJoinExecutor (turns ++ finish (replicate (Z.to_nat n) g)))
       g n p).1 =
    Returns (String.concat "" (replicate (Z.to_nat n) out)).
Proof.
  intros Hn Hg.
  assert (Hfix : Forall2 always_returns (replicate (Z.to_nat n) g)
                   (replicate (Z.to_nat n) out))
    by (by apply Forall2_replicate).
  rewrite !executeGeneratorRepeatedly_delegates by done.
  split; [| split].
  - by apply serialExecutor_Execute_always_returns.
  - by apply forkJoinExecutor_Execute_always_returns.
  - apply forkJoinExecutor_Execute_always_returns; [done |].
    apply forkJoinExecutor_Execute_finish.
Qed.

(** ** The slots of [results] *)

(** X9: at any point of any interleaving, as long as the process has not
    been terminated, [results] has its N slots, the slot of a task whose
    goroutine has not assigned it (not yet, or because its call panicked)
    holds the empty string, and the slot of a task whose goroutine has
    assigned it holds what the call of that task returned: no goroutine
    writes another's slot. *)
Theorem results_slots_are_owned gens turns st h p' :
  interleave gens turns (fork gens) (start st) = (Returns h, p') →
  length (results h) = length gens
  ∧ ∀ j, j < length gens →
      if has_stored (goroutines h !! j)
      then ∃ out, (j, Ret out) ∈ calls p' ∧ results h !! j = Some out
      else results h !! j = Some "".
Proof.
  intros Hrun.
  pose proof (Inv_interleave Impl_Generate gens turns (fork gens) []
                (start st) (Inv_fork Impl_Generate gens)) as HInv.
  rewrite Hrun in HInv. destruct HInv as (ev & Hc & HInv).
  cbn [start calls app] in Hc. rewrite app_nil_l in HInv. subst ev.
  split; [apply (inv_results _ _ _ _ HInv) |].
  intros j Hj. destruct (has_stored (goroutines h !! j)) eqn:Hst.
  - assert (Hstage : goroutines h !! j = Some Stored
                     ∨ goroutines h !! j = Some Finished)
      by (destruct (goroutines h !! j) as [[]|]; try done; auto).
    destruct (inv_returned _ _ _ _ HInv j Hstage) as [out Hout].
    exists out. split; [done |]. by apply (inv_slot _ _ _ _ HInv).
  - by apply (inv_empty _ _ _ _ HInv).
Qed.

(** ** No task is called twice *)

(** X10: under every interleaving, whether the call has returned, is still
    under way, or the process has been terminated, and whatever calls have
    panicked, the fork/join executor has called no task twice and has
    called through no index outside the task list. *)
Theorem forkJoinExecutor_Execute_calls_once gens turns st :
  let R := forkJoinExecutor_Execute turns gens (start st) in
  NoDup (calls R.2).*1 ∧ Forall (λ j, j < length gens) (calls R.2).*1.
Proof.
  intros R. unfold R. rewrite Forall_forall.
  pose proof (forkJoinExecutor_Execute_spec Impl_Generate gens turns (start st))
    as Hrun.
  destruct (forkJoinExecutor_Execute turns gens (start st))
    as [[s|v|v|] p']; try done; cbn [snd].
  - destruct Hrun as (ev & outs & Hc & Hperm & _).
    cbn [start calls app] in Hc. rewrite Hc. split.
    + rewrite Hperm. apply NoDup_seq.
    + intros j Hj. rewrite Hperm in Hj. apply elem_of_seq in Hj. lia.
  - destruct Hrun as (ev & k & g & st0 & Hc & Hnd & Hlt & _).
    cbn [start calls app] in Hc. by rewrite Hc.
  - destruct Hrun as (ev & Hc & Hnd & Hlt).
    cbn [start calls app] in Hc. by rewrite Hc.
Qed.

(** ** The serial executor as one interleaving of the fork/join executor *)

Lemma Join_snoc (l : list string) (x : string) :
  String.concat "" (l ++ [x]) = String.concat "" l +:+ x.
Proof.
  induction l as [|y l IH]; [reflexivity |].
  rewrite <- app_comm_cons, !Join_cons, IH. by rewrite append_assoc.
Qed.

(** The launching loop run to its end before any goroutine runs. *)
Lemma interleave_launch_all gens n h p :
  length (goroutines h) + n ≤ length gens →
  interleave gens (replicate n MainTurn) h p =
  (Returns (mkShared (results h) (waiter h)
              (goroutines h ++ replicate n Launched)), p).
Proof.
  revert h. induction n as [|n IH]; intros h Hle.
  - simpl. rewrite app_nil_r. by destruct h.
  - rewrite replicate_S, interleave_cons. unfold turn, mret, M_ret, main_turn.
    rewrite decide_True by lia. rewrite IH.
    + cbn [results waiter goroutines]. by rewrite <- app_assoc.
    + cbn [goroutines]. rewrite length_app. simpl. lia.
Qed.

(** The goroutines from [i] on run one after the other in the order of the
    tasks do what the rounds of the serial loop from [i] on do; where the
    serial loop is left by a panic, the goroutine of that round makes the
    same call, runs its deferred [waiter.Done()] and the process is
    terminated. *)
Lemma in_order_loop gens c i outs p :
  i + c = length gens →
  length outs = i →
  match for_loop c i (serial_body gens) (String.concat "" outs) p with
  | (Returns s, p') => ∃ outs',
      s = String.concat "" outs'
      ∧ interleave gens
          (seq i c ≫= λ i, [GoroutineTurn i; GoroutineTurn i; GoroutineTurn i])
          (mkShared (outs ++ replicate c "") (Z.of_nat c)
             (replicate i Finished ++ replicate c Launched)) p =
        (Returns (mkShared outs' 0 (replicate (length gens) Finished)), p')
  | (Panics v, p') =>
      interleave gens
        (seq i c ≫= λ i, [GoroutineTurn i; GoroutineTurn i; GoroutineTurn i])
        (mkShared (outs ++ replicate c "") (Z.of_nat c)
           (replicate i Finished ++ replicate c Launched)) p =
      (Crashes v, p')
  | _ => True
  end.
Proof.
  revert i outs p. induction c as [|c IH]; intros i outs p Hlen Houts.
  - exists outs. split; [done |]. simpl. rewrite !app_nil_r.
    by replace i with (length gens) by lia.
  - destruct (lookup_lt_is_Some_2 gens i) as [g Hg]; [lia |].
    rewrite for_loop_S, (serial_body_round _ _ _ _ _ _ Hg).
    rewrite <- cons_seq, bind_cons, interleave_app.
    set (rest := seq (S i) c ≫= _).
    unfold mbind, M_bind.
    set (h0 := mkShared _ _ _).
    assert (Hst0 : goroutines h0 !! i = Some Launched).
    { unfold h0. cbn [goroutines]. rewrite replicate_S.
      apply list_lookup_middle. by rewrite length_replicate. }
    assert (Hlg : length (goroutines h0) = i + S c).
    { unfold h0. cbn [goroutines].
      by rewrite length_app, !length_replicate. }
    assert (Hlr : length (results h0) = i + S c).
    { unfold h0. cbn [results]. rewrite length_app, length_replicate. lia. }
    rewrite interleave_cons. unfold turn.
    rewrite (goroutine_turn_Launched _ _ _ _ _ _ Hst0 Hg).
    destruct (Generate g (world p)) as [[s|v] st]; cbn [fst snd].
    + rewrite interleave_cons. unfold turn.
      rewrite (goroutine_turn_Called _ _ _ s)
        by (cbn [goroutines results];
            first [apply list_lookup_insert_eq; lia | lia]).
      rewrite interleave_cons. unfold turn. cbn [goroutines results waiter].
      rewrite goroutine_turn_Stored
        by (cbn [goroutines]; apply list_lookup_insert_eq;
            rewrite length_insert; lia).
      cbn [interleave]. unfold mret at 1, M_ret at 1.
      cbn [goroutines results waiter].
      rewrite !list_insert_insert_eq.
      assert (Hres : <[i:=s]> (results h0) = (outs ++ [s]) ++ replicate c "").
      { unfold h0. cbn [results]. rewrite replicate_S.
        replace i with (length outs + 0) at 1 by lia.
        rewrite insert_app_r, <- app_assoc. reflexivity. }
      assert (Hgo : <[i:=Finished]> (goroutines h0) =
                    replicate (S i) Finished ++ replicate c Launched).
      { unfold h0. cbn [goroutines]. rewrite (replicate_S c).
        replace i with (length (replicate i Finished) + 0) at 1
          by (rewrite length_replicate; lia).
        rewrite insert_app_r, replicate_S_end, <- app_assoc. reflexivity. }
      assert (Hwa : (waiter h0 - 1)%Z = Z.of_nat c)
        by (unfold h0; cbn [waiter]; lia).
      rewrite Hres, Hgo, Hwa, <- Join_snoc. subst rest.
      apply IH; [lia |]. rewrite length_app. simpl. lia.
    + rewrite interleave_cons. unfold turn.
      rewrite (goroutine_turn_Panicking _ _ _ v)
        by (cbn [goroutines]; apply list_lookup_insert_eq; lia).
      rewrite interleave_cons. unfold turn. cbn [goroutines results waiter].
      by rewrite (goroutine_turn_Dying _ _ _ v)
        by (cbn [goroutines]; apply list_lookup_insert_eq;
            rewrite length_insert; lia).
Qed.

(** The serial executor returns or hands a panic on. *)
Lemma serialExecutor_Execute_ends gens p :
  match (serialExecutor_Execute gens p).1 with
  | Returns _ | Panics _ => True
  | Crashes _ | Unfinished => False
  end.
Proof.
  unfold serialExecutor_Execute. rewrite bind_mret.
  destruct (serial_loop_spec Impl_Generate gens (length gens) 0 "" p)
    as [outs Hspec]; [done |].
  by destruct (for_loop _ _ _ _ _) as [[s|v|v|] p'].
Qed.

(** X11: what the serial executor does is one behaviour of the fork/join
    executor.  Under the interleaving that launches every goroutine and
    then runs them one after the other in the order of the tasks, each
    through its three steps, the fork/join executor makes the same calls on
    the same states and returns the same string as the serial executor; and
    where the serial executor is left by the panic of a call, the goroutine
    of that task makes the same call, runs its deferred [waiter.Done()], and
    the process is terminated with the same value, no later task having
    been called. *)
Theorem serialExecutor_Execute_is_an_interleaving gens p :
  match serialExecutor_Execute gens p with
  | (Returns s, p') =>
      forkJoinExecutor_Execute (finish gens) gens p = (Returns s, p')
  | (Panics v, p') =>
      forkJoinExecutor_Execute (finish gens) gens p = (Crashes v, p')
  | (Crashes _, _) | (Unfinished, _) => False
  end.
Proof.
  pose proof (serialExecutor_Execute_ends gens p) as Hnever.
  unfold serialExecutor_Execute in *. rewrite bind_mret in *.
  rewrite forkJoinExecutor_Execute_unfold. unfold finish.
  rewrite interleave_app. set (units := seq 0 (length gens) ≫= _).
  unfold mbind, M_bind. subst units.
  rewrite interleave_launch_all by (unfold fork; simpl; lia).
  pose proof (in_order_loop gens (length gens) 0 [] p eq_refl eq_refl) as Hloop.
  change (String.concat "" []) with "" in Hloop.
  unfold fork, waiter_Add. cbn [results waiter goroutines].
  rewrite Z.add_0_l, app_nil_l. cbn [replicate app] in Hloop.
  destruct (for_loop (length gens) 0 (serial_body gens) "" p)
    as [[s|v|v|] p']; try done.
  - destruct Hloop as (outs' & -> & ->). cbn [results waiter goroutines].
    by rewrite length_replicate, decide_True by done.
  - by rewrite Hloop.
Qed.

End ExecutorMore.

(** ** The further properties on the sample generators *)

Lemma waiter_counts_unfinished_witness :
  interleave Sample_Generate a_b_c
    [MainTurn; MainTurn; GoroutineTurn 1; GoroutineTurn 0; GoroutineTurn 0;
     GoroutineTurn 0]
    (fork a_b_c) (start false) =
    (Returns (mkShared ["a"; ""; ""] 2 [Finished; Called "b"]),
     mkProc false [(1, Ret "b"); (0, Ret "a")])
  ∧ (0 ≤ 2 ≤ Z.of_nat (length a_b_c))%Z.
Proof.
  split; [reflexivity |].
  exact (proj1 (proj2 (waiter_counts_unfinished Sample_Generate a_b_c
    [MainTurn; MainTurn; GoroutineTurn 1; GoroutineTurn 0; GoroutineTurn 0;
     GoroutineTurn 0]
    (start false) (mkShared ["a"; ""; ""] 2 [Finished; Called "b"])
    (mkProc false [(1, Ret "b"); (0, Ret "a")]) eq_refl))).
Defined.

Lemma forkJoinExecutor_Execute_stable_witness :
  (forkJoinExecutor_Execute Sample_Generate mixed_turns a_b_c (start false)).1 =
    Returns "abc"
  ∧ all_returned
      (forkJoinExecutor_Execute Sample_Generate mixed_turns a_b_c (start false)).2
  ∧ forkJoinExecutor_Execute Sample_Generate
      (mixed_turns ++ [GoroutineTurn 1; MainTurn]) a_b_c (start false) =
    forkJoinExecutor_Execute Sample_Generate mixed_turns a_b_c (start false).
Proof.
  assert (Hret : (forkJoinExecutor_Execute Sample_Generate mixed_turns a_b_c
                    (start false)).1 = Returns "abc") by reflexivity.
  assert (H : all_returned
    (forkJoinExecutor_Execute Sample_Generate mixed_turns a_b_c (start false)).2)
    by solve_all_returned.
  split; [exact Hret |]. split; [exact H |].
  exact (forkJoinExecutor_Execute_stable Sample_Generate a_b_c mixed_turns
           [GoroutineTurn 1; MainTurn] false "abc" Hret H).
Defined.

Lemma serialExecutor_Execute_app_witness :
  (0 ≤ 1)%Z ∧ (0 ≤ 2)%Z
  ∧ observable (executeGeneratorRepeatedly (NewSerialExecutor Sample_Generate)
                  (Some Flip) (1 + 2) (start false)) =
    and_then (executeGeneratorRepeatedly (NewSerialExecutor Sample_Generate)
                (Some Flip) 1 (start false))
      (λ st, executeGeneratorRepeatedly (NewSerialExecutor Sample_Generate)
               (Some Flip) 2 (start st)).
Proof.
  assert (Hn : (0 ≤ 1)%Z) by lia. assert (Hm : (0 ≤ 2)%Z) by lia.
  split; [exact Hn |]. split; [exact Hm |].
  exact (proj2 (serialExecutor_Execute_app Sample_Generate a_b_c flip_flip
                  (Some Flip) 1 2 (start false)) Hn Hm).
Defined.

Lemma executeGeneratorRepeatedly_n_fold_witness :
  (0 ≤ 2)%Z
  ∧ always_returns Sample_Generate (Some (Const "ab")) "ab"
  ∧ (executeGeneratorRepeatedly (NewSerialExecutor Sample_Generate)
       (Some (Const "ab")) 2 (start false)).1 =
    Returns (String.concat "" (replicate (Z.to_nat 2) "ab")).
Proof.
  assert (Hn : (0 ≤ 2)%Z) by lia.
  assert (Hg : always_returns Sample_Generate (Some (Const "ab")) "ab")
    by (intros ?; reflexivity).
  split; [exact Hn |]. split; [exact Hg |].
  exact (proj1 (executeGeneratorRepeatedly_n_fold Sample_Generate
                  (Some (Const "ab")) "ab" 2 [] (start false) Hn Hg)).
Defined.

Lemma results_slots_are_owned_witness :
  interleave Sample_Generate a_boom_c
    [MainTurn; MainTurn; MainTurn; GoroutineTurn 2; GoroutineTurn 2]
    (fork a_boom_c) (start false) =
    (Returns (mkShared [""; ""; "c"] 3 [Launched; Launched; Stored]),
     mkProc false [(2, Ret "c")])
  ∧ length [""; ""; "c"] = length a_boom_c.
Proof.
  split; [reflexivity |].
  exact (proj1 (results_slots_are_owned Sample_Generate a_boom_c
    [MainTurn; MainTurn; MainTurn; GoroutineTurn 2; GoroutineTurn 2] false
    (mkShared [""; ""; "c"] 3 [Launched; Launched; Stored])
    (mkProc false [(2, Ret "c")]) eq_refl)).
Defined.
